(** * StudentWaveNet: a shallow embedding of [wavenet_vocoder/student_wavenet.py]

    The development follows the Python class [StudentWaveNet] method by
    method: construction ([__init__]), the batch flow path ([forward]), the
    streaming path ([incremental_forward], [clear_buffer]) and weight
    normalisation removal ([make_generation_fast_]).

    Conventions.
    - A tensor is a shape together with its entries; entries are idealised
      as real numbers, and every tensor operation the class itself performs
      (slicing, transposition, broadcasting arithmetic, stacking, ...) is
      written out.
    - Python exceptions are values of [exn]; a computation that mutates
      objects or draws random numbers lives in the monad [M S], whose state
      survives a raised exception, as mutation does in Python.
    - Code of the repository that the class calls but that is defined in
      other files (the layer classes of [modules.py], the mixture sampler,
      the speaker embedding, ...) is the interface [Collaborators]. *)

From Stdlib Require Import List ZArith Reals Lia Lra Bool Arith.
Import ListNotations.

(** ** Exceptions and results *)

Inductive exn : Set :=
| AssertionError
| AttributeError
| IndexError
| ZeroDivisionError
| TypeError
| ValueError
| RuntimeError.

Inductive result (A : Type) : Type :=
| Ok (a : A)
| Raise (e : exn).

Arguments Ok {A} a.
Arguments Raise {A} e.

Definition is_raise {A} (r : result A) : Prop :=
  match r with Ok _ => False | Raise _ => True end.

Definition rassert (b : bool) : result unit :=
  if b then Ok tt else Raise AssertionError.

Definition rbind {A B} (r : result A) (k : A -> result B) : result B :=
  match r with Ok a => k a | Raise e => Raise e end.

(** Stateful computations.  The state reached when an exception is raised is
    returned with it. *)
Definition M (S A : Type) : Type := S -> result A * S.

Definition ret {S A} (a : A) : M S A := fun s => (Ok a, s).

Definition raise {S A} (e : exn) : M S A := fun s => (Raise e, s).

Definition bind {S A B} (c : M S A) (k : A -> M S B) : M S B :=
  fun s => match c s with
           | (Ok a, s') => k a s'
           | (Raise e, s') => (Raise e, s')
           end.

Definition lift {S A} (r : result A) : M S A := fun s => (r, s).

Definition py_assert {S} (b : bool) : M S unit :=
  if b then ret tt else raise AssertionError.

Declare Scope py_scope.
Delimit Scope py_scope with py.
Notation "x <- c ;; k" := (bind c (fun x => k))
  (at level 61, c at next level, right associativity) : py_scope.
Notation "' p <- c ;; k" := (bind c (fun x => match x with p => k end))
  (at level 61, p pattern, c at next level, right associativity) : py_scope.
Notation "c ;; k" := (bind c (fun _ => k))
  (at level 61, right associativity) : py_scope.
Notation "x <-? r ;; k" := (rbind r (fun x => k))
  (at level 61, r at next level, right associativity) : py_scope.
Notation "' p <-? r ;; k" := (rbind r (fun x => match x with p => k end))
  (at level 61, p pattern, r at next level, right associativity) : py_scope.
Notation "r ;;? k" := (rbind r (fun _ => k))
  (at level 61, right associativity) : py_scope.
Open Scope py_scope.

(** ** Tensors *)

Definition shape := list nat.
Definition index := list nat.

Record tensor : Type := mkTensor { size : shape; data : index -> R }.

Definition dim (t : tensor) : nat := length (size t).

Definition numel (sh : shape) : nat := fold_right Nat.mul 1 sh.

(** [t.size(i)], [i] possibly negative. *)
Definition size_at (t : tensor) (i : Z) : result nat :=
  let n := Z.of_nat (dim t) in
  let i' := if (i <? 0)%Z then (i + n)%Z else i in
  if ((0 <=? i') && (i' <? n))%Z
  then Ok (nth (Z.to_nat i') (size t) 0)
  else Raise IndexError.

(** *** Broadcasting

    Shapes are aligned from the last dimension; two extents are compatible
    when they are equal or one of them is 1. *)

Fixpoint broadcast_rev (a b : shape) : option shape :=
  match a, b with
  | [], _ => Some b
  | _, [] => Some a
  | x :: a', y :: b' =>
      match broadcast_rev a' b' with
      | None => None
      | Some c =>
          if x =? y then Some (x :: c)
          else if x =? 1 then Some (y :: c)
          else if y =? 1 then Some (x :: c)
          else None
      end
  end.

Definition broadcast_shapes (a b : shape) : option shape :=
  option_map (@rev nat) (broadcast_rev (rev a) (rev b)).

Fixpoint clamp_rev (sh : shape) (idx : index) : index :=
  match sh, idx with
  | d :: sh', i :: idx' => (if d =? 1 then 0 else i) :: clamp_rev sh' idx'
  | _, _ => []
  end.

(** The position read in a tensor of shape [sh] for position [idx] of a
    tensor it was broadcast to. *)
Definition bindex (sh : shape) (idx : index) : index :=
  rev (clamp_rev (rev sh) (rev idx)).

Definition tget (t : tensor) (idx : index) : R := data t (bindex (size t) idx).

Definition tzip (f : R -> R -> R) (a b : tensor) : result tensor :=
  match broadcast_shapes (size a) (size b) with
  | Some sh => Ok (mkTensor sh (fun idx => f (tget a idx) (tget b idx)))
  | None => Raise RuntimeError
  end.

Definition tadd : tensor -> tensor -> result tensor := tzip Rplus.
Definition tmul : tensor -> tensor -> result tensor := tzip Rmult.

Definition tmap (f : R -> R) (t : tensor) : tensor :=
  mkTensor (size t) (fun idx => f (data t idx)).

(** [t * r] for a Python float [r]. *)
Definition tscale (t : tensor) (r : R) : tensor := tmap (fun v => (v * r)%R) t.

(** [torch.exp] on the idealised entries: the real exponential has neither
    the underflow to 0 nor the overflow of its floating-point counterpart. *)
Definition texp : tensor -> tensor := tmap exp.

(** [nn.ReLU] *)
Definition relu : tensor -> tensor := tmap (Rmax 0).

Definition full (sh : shape) (v : R) : tensor := mkTensor sh (fun _ => v).

(** [torch.zeros(sh)] *)
Definition zeros (sh : shape) : tensor := full sh 0%R.

(** [t.fill_(v)] *)
Definition fill_ (t : tensor) (v : R) : tensor := full (size t) v.

(** [t.zero_()] *)
Definition zero_ (t : tensor) : tensor := fill_ t 0%R.

(** *** Views *)

Definition swap_nth {A} (l : list A) (i j : nat) (d : A) : list A :=
  map (fun k => nth (if k =? i then j else if k =? j then i else k) l d)
      (seq 0 (length l)).

(** [t.transpose(i, j)] *)
Definition transpose (t : tensor) (i j : nat) : result tensor :=
  if (i <? dim t) && (j <? dim t)
  then Ok (mkTensor (swap_nth (size t) i j 0)
                    (fun idx => data t (swap_nth idx i j 0)))
  else Raise IndexError.

(** [t.unsqueeze(d)] *)
Definition unsqueeze (t : tensor) (d : nat) : result tensor :=
  if d <=? dim t
  then Ok (mkTensor (firstn d (size t) ++ 1 :: skipn d (size t))
                    (fun idx => data t (firstn d idx ++ skipn (S d) idx)))
  else Raise IndexError.

(** [t.squeeze(d)]: removes dimension [d] when its extent is 1. *)
Definition squeeze (t : tensor) (d : nat) : result tensor :=
  if d <? dim t
  then if nth d (size t) 0 =? 1
       then Ok (mkTensor (firstn d (size t) ++ skipn (S d) (size t))
                         (fun idx => data t (firstn d idx ++ 0 :: skipn d idx)))
       else Ok t
  else Raise IndexError.

(** Subscripting.  [n] is the number of subscripts written; a tensor with
    fewer dimensions raises [IndexError]. *)

(** [t[:, i, :]] is [select 3 t 1 i]. *)
Definition select (n : nat) (t : tensor) (d i : nat) : result tensor :=
  if (n <=? dim t) && (i <? nth d (size t) 0)
  then Ok (mkTensor (firstn d (size t) ++ skipn (S d) (size t))
                    (fun idx => data t (firstn d idx ++ i :: skipn d idx)))
  else Raise IndexError.

(** [t[:, lo:hi, :]] is [slice 3 t 1 lo hi] ([hi = None] for an open slice);
    slice bounds are clipped to the extent, as Python does. *)
Definition slice (n : nat) (t : tensor) (d lo : nat) (hi : option nat)
  : result tensor :=
  if n <=? dim t
  then let e := nth d (size t) 0 in
       let lo' := Nat.min lo e in
       let hi' := match hi with Some h => Nat.min h e | None => e end in
       Ok (mkTensor (firstn d (size t) ++ (hi' - lo') :: skipn (S d) (size t))
                    (fun idx => data t (firstn d idx ++ (nth d idx 0 + lo')
                                          :: skipn (S d) idx)))
  else Raise IndexError.

(** [t[:, :, k] = v] is [index_fill 3 t 2 k v]. *)
Definition index_fill (n : nat) (t : tensor) (d k : nat) (v : R)
  : result tensor :=
  if (n <=? dim t) && (k <? nth d (size t) 0)
  then Ok (mkTensor (size t)
                    (fun idx => if nth d idx 0 =? k then v else data t idx))
  else Raise IndexError.

(** [l[i]] for a Python list. *)
Definition getitem {A} (l : list A) (i : nat) : result A :=
  match nth_error l i with Some a => Ok a | None => Raise IndexError end.

Definition shape_eqb (a b : shape) : bool :=
  if list_eq_dec Nat.eq_dec a b then true else false.

(** [torch.stack(ts)] *)
Definition stack (ts : list tensor) : result tensor :=
  match ts with
  | [] => Raise RuntimeError
  | t0 :: _ =>
      if forallb (fun t => shape_eqb (size t) (size t0)) ts
      then Ok (mkTensor (length ts :: size t0)
                        (fun idx => match idx with
                                    | [] => 0%R
                                    | i :: idx' => data (nth i ts t0) idx'
                                    end))
      else Raise RuntimeError
  end.

(** Row-major position of an index, and back. *)
Fixpoint ravel (sh : shape) (idx : index) (acc : nat) : nat :=
  match sh, idx with
  | d :: sh', i :: idx' => ravel sh' idx' (acc * d + i)
  | _, _ => acc
  end.

Fixpoint unravel_rev (rsh : shape) (n : nat) : index :=
  match rsh with
  | [] => []
  | d :: r => (n mod d) :: unravel_rev r (n / d)
  end.

Definition unravel (sh : shape) (n : nat) : index := rev (unravel_rev (rev sh) n).

(** [t.view(...)]; [None] stands for the one extent written [-1]. *)
Definition view (t : tensor) (sh : list (option nat)) : result tensor :=
  let known :=
    fold_right (fun o p => match o with Some d => d * p | None => p end) 1 sh in
  let holes :=
    length (filter (fun o => match o with None => true | _ => false end) sh) in
  let n := numel (size t) in
  let mk (sh' : shape) :=
    Ok (mkTensor sh' (fun idx => data t (unravel (size t) (ravel sh' idx 0)))) in
  match holes with
  | 0 => if known =? n
         then mk (map (fun o => match o with Some d => d | None => 0 end) sh)
         else Raise RuntimeError
  | 1 => if (known =? 0) || negb (n mod known =? 0)
         then Raise RuntimeError
         else mk (map (fun o => match o with Some d => d | None => n / known end) sh)
  | _ => Raise RuntimeError
  end.

(** ** Python integers *)

Definition py_mod (a b : Z) : result Z :=
  if (b =? 0)%Z then Raise ZeroDivisionError else Ok (a mod b)%Z.

Definition py_floordiv (a b : Z) : result Z :=
  if (b =? 0)%Z then Raise ZeroDivisionError else Ok (a / b)%Z.

(** [range(n)] and [range(a, b)] *)
Definition range (n : Z) : list Z := map Z.of_nat (seq 0 (Z.to_nat n)).
Definition range2 (a b : nat) : list nat := seq a (b - a).

(** A Python number: [2 ** e] is an [int] for [e >= 0] and a [float]
    otherwise. *)
Inductive pynum : Type :=
| PyInt (z : Z)
| PyFloat (r : R).

Definition py_pow2 (e : Z) : pynum :=
  if (e <? 0)%Z then PyFloat (powerRZ 2 e) else PyInt (2 ^ e)%Z.

(** ** Layer objects

    The layer classes live in [modules.py], in [deepvoice3_pytorch] and in
    PyTorch.  What the class under study relies on is kept: constructor
    arguments, the weights with their weight-normalisation state, and the
    streaming input history. *)

(** A weight either carries the weight-normalisation reparameterisation
    ([weight_g], [weight_v] and the hook recomputing [weight]) or is plain. *)
Inductive weight_param : Type :=
| WeightNormed (g v : tensor)
| Plain (w : tensor).

(** Modelled from the spec: the 1x1 convolution ([Conv1d1x1] of
    [modules.py]), with the input history its streaming form owns. *)
Record Conv1d1x1 : Type := mkConv1d1x1 {
  c_in : nat;
  c_out : nat;
  c_weight : weight_param;
  c_buffer : option tensor
}.

(** Modelled from the spec: the gated, dilated residual block
    ([ResidualConv1dGLU] of [modules.py]); [glu_weights] are the weights of
    the convolutions it contains. *)
Record ResidualConv1dGLU : Type := mkResidualConv1dGLU {
  glu_residual_channels : nat;
  glu_gate_channels : nat;
  glu_kernel_size : Z;
  glu_bias : bool;
  glu_dilation : pynum;
  glu_dropout : R;
  glu_cin_channels : Z;
  glu_gin_channels : Z;
  glu_weights : list weight_param;
  glu_buffer : option tensor
}.

(** Modelled from the spec: the transposed convolution of the upsampling
    stage ([ConvTranspose2d] of [modules.py]). *)
Record ConvTranspose2d : Type := mkConvTranspose2d {
  ct_kernel_size : Z * Z;
  ct_padding : Z * Z;
  ct_stride : Z * Z;
  ct_weight : weight_param
}.

(** Modelled from the spec: the speaker embedding table ([Embedding] of
    [deepvoice3_pytorch.modules]). *)
Record Embedding : Type := mkEmbedding {
  emb_num : nat;
  emb_dim : Z;
  emb_std : R;
  emb_weight : tensor
}.

(** The members of the [nn.ModuleList]s [last_layer] and [upsample_conv]. *)
Inductive module : Type :=
| ReLU
| Conv1x1 (m : Conv1d1x1)
| ConvT (m : ConvTranspose2d).

(** ** Collaborators

    Functions of the repository (and of PyTorch and NumPy) that the class
    calls and that are defined elsewhere. *)

Class Collaborators : Type := {
  (** state of the NumPy and PyTorch random generators *)
  rng : Type;
  (** initial value of a weight of a given shape *)
  init_weight : shape -> tensor;
  (** [weight_normalization] of [Conv1d1x1] when the argument is omitted *)
  conv1x1_weight_normalization_default : bool;
  (** shapes of the weights of a residual block *)
  glu_weight_shapes : nat -> nat -> Z -> Z -> Z -> list shape;
  receptive_field_size : Z -> Z -> Z -> Z;
  (** [weight = g * v / |v|] *)
  weight_norm : tensor -> tensor -> tensor;
  np_random_logistic : shape -> rng -> (index -> R) * rng;
  torch_rand : shape -> rng -> (index -> R) * rng;
  np_random_choice : nat -> tensor -> M rng nat;
  softmax : tensor -> result tensor;
  sample_from_discretized_mix_logistic : tensor -> R -> M rng tensor;
  expand_global_features : nat -> Z -> option tensor -> bool -> result (option tensor);
  Embedding_forward : Embedding -> tensor -> result tensor;
  ConvTranspose2d_forward : ConvTranspose2d -> tensor -> result tensor;
  Conv1d1x1_forward : Conv1d1x1 -> tensor -> result tensor;
  ResidualConv1dGLU_forward :
    ResidualConv1dGLU -> tensor -> option tensor -> option tensor ->
    M rng (tensor * tensor);
  (** the streaming forms return the output and the new input history *)
  Conv1d1x1_incremental_forward :
    Conv1d1x1 -> tensor -> result (tensor * option tensor);
  ResidualConv1dGLU_incremental_forward :
    ResidualConv1dGLU -> tensor -> option tensor -> option tensor ->
    M rng (tensor * tensor * option tensor)
}.

(** ** The network object *)

Module Args.
(** Arguments of [StudentWaveNet(...)].  Channel and speaker counts are
    tensor extents, hence natural numbers; [cin_channels] and [gin_channels]
    may be negative, which disables the conditioning. *)
Record t : Type := mk {
  out_channels : nat;
  layers : Z;
  stacks : Z;
  iaf_layer_size : list Z;
  residual_channels : nat;
  gate_channels : nat;
  kernel_size : Z;
  dropout : R;
  cin_channels : Z;
  gin_channels : Z;
  n_speakers : option nat;
  weight_normalization : bool;
  upsample_conditional_features : bool;
  upsample_scales : option (list Z);
  freq_axis_kernel_size : Z;
  scalar_input : bool;
  is_student : bool
}.

Definition default : t :=
  mk 2 30 3 [10; 10; 10; 30]%Z 64 64 3 (1 - 0.95)%R (-1) (-1) None true
     false None 3 true true.

(** A two-layer, one-stack network with two flow steps, scalar input and no
    conditioning. *)
Definition small : t :=
  mk 2 2 1 [2; 2]%Z 4 4 3 (1 - 0.95)%R (-1) (-1) None true
     false None 3 true true.
End Args.

Record StudentWaveNet : Type := mkStudentWaveNet {
  scalar_input : bool;
  out_channels : nat;
  cin_channels : Z;
  is_student : bool;
  last_layers : list module;
  first_conv : Conv1d1x1;
  (** the residual blocks, in creation order *)
  conv_layers : list ResidualConv1dGLU;
  (** each flow step lists the blocks of [conv_layers] it shares, by
      position *)
  iaf_layers : list (list nat);
  last_layer : list module;
  (** read by [incremental_forward] and [clear_buffer]; [None] when the
      object has no such attribute *)
  last_conv_layers : option (list module);
  embed_speakers : option Embedding;
  upsample_conv : option (list module);
  receptive_field : Z
}.

Section StudentWaveNet.

Context {collab : Collaborators}.

(** Modelled from the spec: the weight of a freshly constructed
    convolution, weight-normalised when asked to. *)
Definition fresh_weight (wn : bool) (sh : shape) : weight_param :=
  if wn then WeightNormed (init_weight sh) (init_weight sh)
  else Plain (init_weight sh).

(** Modelled from the spec: [Conv1d1x1(cin, cout, weight_normalization=wn)]
    of [modules.py].  A fresh layer records its arguments and has no input
    history (histories are created lazily on the first incremental step). *)
Definition new_Conv1d1x1 (cin cout : nat) (wn : option bool) : Conv1d1x1 :=
  let wn' := match wn with
             | Some b => b
             | None => conv1x1_weight_normalization_default
             end in
  mkConv1d1x1 cin cout (fresh_weight wn' [cout; cin; 1]) None.

(** Modelled from the spec:
    [ResidualConv1dGLU(residual, gate, kernel_size=..., bias=True, ...)] of
    [modules.py], likewise. *)
Definition new_ResidualConv1dGLU (residual gate : nat) (kernel_size : Z)
    (dilation : pynum) (dropout : R) (cin gin : Z) (wn : bool)
  : ResidualConv1dGLU :=
  mkResidualConv1dGLU residual gate kernel_size true dilation dropout cin gin
    (map (fresh_weight wn) (glu_weight_shapes residual gate kernel_size cin gin))
    None.

(** Modelled from the spec:
    [ConvTranspose2d(1, 1, ks, padding=..., dilation=1, stride=...)] of
    [modules.py]. *)
Definition new_ConvTranspose2d (ks padding stride : Z * Z) (wn : bool)
  : ConvTranspose2d :=
  mkConvTranspose2d ks padding stride
    (fresh_weight wn [1; 1; Z.to_nat (fst ks); Z.to_nat (snd ks)]).

(** Modelled from the spec:
    [Embedding(n_speakers, gin_channels, padding_idx=None, std=0.1)] of
    [deepvoice3_pytorch.modules]. *)
Definition new_Embedding (n : nat) (d : Z) (std : R) : Embedding :=
  mkEmbedding n d std (init_weight [n; Z.to_nat d]).

(** ** Construction: [__init__] *)

(** The inner loop [for layer in range(layer_size)]: every block is appended
    both to [conv_layers] and to the flow step being built. *)
Fixpoint build_iaf_layer (a : Args.t) (layers_per_stack : Z) (ls : list Z)
    (convs : list ResidualConv1dGLU) (iaf_layer : list nat)
  : result (list ResidualConv1dGLU * list nat) :=
  match ls with
  | [] => Ok (convs, iaf_layer)
  | layer :: ls' =>
      e <-? py_mod layer layers_per_stack ;;
      let conv :=
        new_ResidualConv1dGLU (Args.residual_channels a) (Args.gate_channels a)
          (Args.kernel_size a) (py_pow2 e) (Args.dropout a)
          (Args.cin_channels a) (Args.gin_channels a)
          (Args.weight_normalization a) in
      build_iaf_layer a layers_per_stack ls'
        (convs ++ [conv]) (iaf_layer ++ [length convs])
  end.

(** The outer loop [for layer_size in iaf_layer_size]. *)
Fixpoint build_iaf_layers (a : Args.t) (layers_per_stack : Z) (sizes : list Z)
    (convs : list ResidualConv1dGLU) (iafs : list (list nat))
  : result (list ResidualConv1dGLU * list (list nat)) :=
  match sizes with
  | [] => Ok (convs, iafs)
  | layer_size :: sizes' =>
      ' (convs', iaf_layer) <-?
        build_iaf_layer a layers_per_stack (range layer_size) convs [] ;;
      build_iaf_layers a layers_per_stack sizes' convs' (iafs ++ [iaf_layer])
  end.

Definition build_embed_speakers (a : Args.t) : result (option Embedding) :=
  if (Args.gin_channels a >? 0)%Z then
    match Args.n_speakers a with
    | None => Raise AssertionError
    | Some n => Ok (Some (new_Embedding n (Args.gin_channels a) 0.1%R))
    end
  else Ok None.

Definition build_upsample_conv (a : Args.t) : result (option (list module)) :=
  if Args.upsample_conditional_features a then
    match Args.upsample_scales a with
    | None => Raise TypeError
    | Some scales =>
        Ok (Some (flat_map (fun s =>
          let freq_axis_padding := ((Args.freq_axis_kernel_size a - 1) / 2)%Z in
          let convt :=
            new_ConvTranspose2d (Args.freq_axis_kernel_size a, s)
              (freq_axis_padding, 0%Z) (1%Z, s) (Args.weight_normalization a) in
          [ConvT convt; ReLU]) scales))
    end
  else Ok None.

Definition __init__ (a : Args.t) : result StudentWaveNet :=
  r <-? py_mod (Args.layers a) (Args.stacks a) ;;
  rassert (r =? 0)%Z ;;?
  layers_per_stack <-? py_floordiv (Args.layers a) (Args.stacks a) ;;
  let first_conv :=
    if Args.scalar_input a
    then new_Conv1d1x1 1 (Args.residual_channels a) None
    else new_Conv1d1x1 (Args.out_channels a) (Args.residual_channels a) None in
  ' (conv_layers, iaf_layers) <-?
    build_iaf_layers a layers_per_stack (Args.iaf_layer_size a) [] [] ;;
  let last_layer :=
    [ReLU;
     Conv1x1 (new_Conv1d1x1 (Args.residual_channels a) (Args.out_channels a)
                (Some (Args.weight_normalization a)))] in
  embed_speakers <-? build_embed_speakers a ;;
  upsample_conv <-? build_upsample_conv a ;;
  Ok (mkStudentWaveNet
        (Args.scalar_input a) (Args.out_channels a) (Args.cin_channels a)
        (Args.is_student a) []
        first_conv conv_layers iaf_layers last_layer None
        embed_speakers upsample_conv
        (receptive_field_size (Args.layers a) (Args.stacks a) (Args.kernel_size a))).

Definition has_speaker_embedding (self : StudentWaveNet) : bool :=
  match embed_speakers self with Some _ => true | None => false end.

Definition local_conditioning_enabled (self : StudentWaveNet) : bool :=
  (cin_channels self >? 0)%Z.

(** ** The batch flow path: [forward] *)

(** [np.random.logistic(0, 1, size=sz)] *)
Definition logistic (sz : shape) : M rng tensor :=
  fun gen => let (d, gen') := np_random_logistic sz gen in
             (Ok (mkTensor sz d), gen').

(** [torch.rand(sz).fill_(v)] *)
Definition rand_filled (sz : shape) (v : R) : M rng tensor :=
  fun gen => let (d, gen') := torch_rand sz gen in
             (Ok (fill_ (mkTensor sz d) v), gen').

(** [f(x)] for a member of a module list. *)
Definition module_forward (f : module) (x : tensor) : result tensor :=
  match f with
  | ReLU => Ok (relu x)
  | Conv1x1 m => Conv1d1x1_forward m x
  | ConvT m => ConvTranspose2d_forward m x
  end.

(** [for f in fs: x = f(x)] *)
Fixpoint apply_modules (fs : list module) (x : tensor) : result tensor :=
  match fs with
  | [] => Ok x
  | f :: fs' => x' <-? module_forward f x ;; apply_modules fs' x'
  end.

(** Global conditioning, common to both paths:
    [g = self.embed_speakers(g.view(B, -1)); assert g.dim() == 3;
     g = g.transpose(1, 2)]. *)
Definition embed_global (self : StudentWaveNet) (B : nat) (g : option tensor)
  : result (option tensor) :=
  match g with
  | None => Ok None
  | Some g0 =>
      gv <-? view g0 [Some B; None] ;;
      match embed_speakers self with
      | None => Raise TypeError
      | Some e =>
          g1 <-? Embedding_forward e gv ;;
          rassert (dim g1 =? 3) ;;?
          g2 <-? transpose g1 1 2 ;;
          Ok (Some g2)
      end
  end.

(** Upsampling of the local conditioning, common to both paths; [T] is the
    time length the result is asserted to have. *)
Definition upsample (self : StudentWaveNet) (c : option tensor) (T : Z)
  : result (option tensor) :=
  match c, upsample_conv self with
  | Some c0, Some fs =>
      c1 <-? unsqueeze c0 1 ;;
      c2 <-? apply_modules fs c1 ;;
      c3 <-? squeeze c2 1 ;;
      n <-? size_at c3 (-1) ;;
      rassert (Z.of_nat n =? T)%Z ;;?
      Ok (Some c3)
  | _, _ => Ok c
  end.

(** [for f in iaf: new_z, h = f(new_z, c, g_bct)] *)
Fixpoint run_iaf (self : StudentWaveNet) (iaf : list nat) (new_z : tensor)
    (c g_bct : option tensor) : M rng tensor :=
  match iaf with
  | [] => ret new_z
  | k :: iaf' =>
      f <- lift (getitem (conv_layers self) k) ;;
      ' (new_z', _) <- ResidualConv1dGLU_forward f new_z c g_bct ;;
      run_iaf self iaf' new_z' c g_bct
  end.

(** One iteration of [for iaf in self.iaf_layers]; returns [mu_f], [scale_f]
    and the updated [z]. *)
Definition flow_step (self : StudentWaveNet) (c g_bct : option tensor)
    (iaf : list nat) (z : tensor) : M rng (tensor * tensor * tensor) :=
  new_z <- lift (Conv1d1x1_forward (first_conv self) z) ;;
  new_z <- run_iaf self iaf new_z c g_bct ;;
  new_z <- lift (apply_modules (last_layer self) new_z) ;;
  mu_f <- lift (slice 3 new_z 1 0 (Some 1)) ;;
  log_scale <- lift (slice 3 new_z 1 1 None) ;;
  let scale_f := texp log_scale in
  zs <- lift (tmul z scale_f) ;;
  z' <- lift (tadd zs mu_f) ;;
  ret (mu_f, scale_f, z').

Fixpoint flow_steps (self : StudentWaveNet) (c g_bct : option tensor)
    (iafs : list (list nat)) (z : tensor) (s m : list tensor)
  : M rng (tensor * list tensor * list tensor) :=
  match iafs with
  | [] => ret (z, s, m)
  | iaf :: iafs' =>
      ' (mu_f, scale_f, z') <- flow_step self c g_bct iaf z ;;
      flow_steps self c g_bct iafs' z' (s ++ [scale_f]) (m ++ [mu_f])
  end.

(** [for j in range(i + 1, len(s)): ss = ss * s[j]] *)
Fixpoint scale_after (s : list tensor) (js : list nat) (ss : tensor)
  : result tensor :=
  match js with
  | [] => Ok ss
  | j :: js' =>
      sj <-? getitem s j ;;
      ss' <-? tmul ss sj ;;
      scale_after s js' ss'
  end.

(** The second loop of [forward], [for i in range(len(s))], over the
    recorded scales [s] and shifts [m]; [zsize] is [z.size()]. *)
Fixpoint compose_steps (zsize : shape) (s m : list tensor) (ids : list nat)
    (mu_tot scale_tot : tensor) : M rng (tensor * tensor) :=
  match ids with
  | [] => ret (mu_tot, scale_tot)
  | i :: ids' =>
      ss <- rand_filled zsize 1 ;;
      ss <- lift (scale_after s (range2 (i + 1) (length s)) ss) ;;
      mi <- lift (getitem m i) ;;
      t <- lift (tmul mi ss) ;;
      mu_tot' <- lift (tadd mu_tot t) ;;
      si <- lift (getitem s i) ;;
      scale_tot' <- lift (tmul scale_tot si) ;;
      compose_steps zsize s m ids' mu_tot' scale_tot'
  end.

Definition forward (self : StudentWaveNet) (x : tensor) (c g : option tensor)
    (softmax : bool) : M rng (tensor * tensor) :=
  match size x with
  | [B; _; T] =>
      z <- logistic (size x) ;;
      g' <- lift (embed_global self B g) ;;
      g_bct <- lift (expand_global_features B (Z.of_nat T) g' true) ;;
      c' <- lift (upsample self c (Z.of_nat T)) ;;
      mu_tot <- rand_filled (size z) 0 ;;
      scale_tot <- rand_filled (size z) 1 ;;
      ' (z', s, m) <- flow_steps self c' g_bct (iaf_layers self) z [] [] ;;
      compose_steps (size z') s m (range2 0 (length s)) mu_tot scale_tot
  | _ => raise ValueError
  end.

(** ** The streaming path: [clear_buffer] and [incremental_forward] *)

(** Attribute updates. *)
Definition set_first_conv (self : StudentWaveNet) (v : Conv1d1x1) :=
  mkStudentWaveNet (scalar_input self) (out_channels self) (cin_channels self)
    (is_student self) (last_layers self) v (conv_layers self)
    (iaf_layers self) (last_layer self) (last_conv_layers self)
    (embed_speakers self) (upsample_conv self) (receptive_field self).

Definition set_conv_layers (self : StudentWaveNet) (v : list ResidualConv1dGLU) :=
  mkStudentWaveNet (scalar_input self) (out_channels self) (cin_channels self)
    (is_student self) (last_layers self) (first_conv self) v
    (iaf_layers self) (last_layer self) (last_conv_layers self)
    (embed_speakers self) (upsample_conv self) (receptive_field self).

Definition set_last_conv_layers (self : StudentWaveNet) (v : option (list module)) :=
  mkStudentWaveNet (scalar_input self) (out_channels self) (cin_channels self)
    (is_student self) (last_layers self) (first_conv self) (conv_layers self)
    (iaf_layers self) (last_layer self) v
    (embed_speakers self) (upsample_conv self) (receptive_field self).

Definition set_c_buffer (m : Conv1d1x1) (b : option tensor) : Conv1d1x1 :=
  mkConv1d1x1 (c_in m) (c_out m) (c_weight m) b.

Definition set_glu_buffer (f : ResidualConv1dGLU) (b : option tensor)
  : ResidualConv1dGLU :=
  mkResidualConv1dGLU (glu_residual_channels f) (glu_gate_channels f)
    (glu_kernel_size f) (glu_bias f) (glu_dilation f) (glu_dropout f)
    (glu_cin_channels f) (glu_gin_channels f) (glu_weights f) b.

(** [l[i] = v] on a list of layer objects. *)
Fixpoint list_set {A} (l : list A) (i : nat) (v : A) : list A :=
  match l, i with
  | [], _ => []
  | _ :: l', O => v :: l'
  | a :: l', S i' => a :: list_set l' i' v
  end.

(** Modelled from the spec: the buffer-clearing operation of a convolution
    layer ([clear_buffer] of [modules.py]) releases its input history. *)
Definition Conv1d1x1_clear_buffer (m : Conv1d1x1) : Conv1d1x1 :=
  set_c_buffer m None.

(** Modelled from the spec: the buffer-clearing operation of a residual
    block ([ResidualConv1dGLU.clear_buffer] of [modules.py]). *)
Definition ResidualConv1dGLU_clear_buffer (f : ResidualConv1dGLU)
  : ResidualConv1dGLU :=
  set_glu_buffer f None.

(** [f.clear_buffer()] for a member of a module list; [nn.ReLU] and
    [ConvTranspose2d] have no such method. *)
Definition module_clear_buffer (f : module) : result module :=
  match f with
  | Conv1x1 m => Ok (Conv1x1 (Conv1d1x1_clear_buffer m))
  | ReLU | ConvT _ => Raise AttributeError
  end.

(** [try: f.clear_buffer() except AttributeError: pass], along a list. *)
Fixpoint clear_modules (fs : list module) : result (list module) :=
  match fs with
  | [] => Ok []
  | f :: fs' =>
      f' <-? match module_clear_buffer f with
             | Raise AttributeError => Ok f
             | r => r
             end ;;
      fs'' <-? clear_modules fs' ;;
      Ok (f' :: fs'')
  end.

Definition clear_buffer : M StudentWaveNet unit :=
  fun self =>
    let self1 := set_first_conv self (Conv1d1x1_clear_buffer (first_conv self)) in
    let self2 :=
      set_conv_layers self1 (map ResidualConv1dGLU_clear_buffer (conv_layers self1)) in
    match last_conv_layers self2 with
    | None => (Raise AttributeError, self2)
    | Some fs =>
        match clear_modules fs with
        | Ok fs' => (Ok tt, set_last_conv_layers self2 (Some fs'))
        | Raise e => (Raise e, self2)
        end
    end.

(** The objects [incremental_forward] mutates: the network and the random
    generators. *)
Record world : Type := mkWorld { net : StudentWaveNet; gen : rng }.

Definition on_net {A} (c : M StudentWaveNet A) : M world A :=
  fun w => let (r, n) := c (net w) in (r, mkWorld n (gen w)).

Definition on_gen {A} (c : M rng A) : M world A :=
  fun w => let (r, g) := c (gen w) in (r, mkWorld (net w) g).

Definition get_net : M world StudentWaveNet := fun w => (Ok (net w), w).

(** Arguments of [incremental_forward]; [tqdm] is left at its default, the
    identity. *)
Record IncArgs : Type := mkIncArgs {
  initial_input : option tensor;
  arg_c : option tensor;
  arg_g : option tensor;
  arg_T : option Z;
  test_inputs : option tensor;
  arg_softmax : bool;
  quantize : bool;
  log_scale_min : R
}.

(** Lines 228-233: the teacher-forcing reference is brought to the
    step-wise layout [(B, T, C)] when its second extent is the channel
    count. *)
Definition reference_layout (self : StudentWaveNet) (ti : tensor) : result tensor :=
  n1 <-? size_at ti 1 ;;
  if scalar_input self
  then if n1 =? 1 then transpose ti 1 2 else Ok ti
  else if n1 =? out_channels self then transpose ti 1 2 else Ok ti.

(** Lines 223-241: batch size and number of steps.  Returns the reference
    in step-wise layout, [B] and [T]; [int(None)] is a [TypeError]. *)
Definition resolve_steps (self : StudentWaveNet) (test_inputs : option tensor)
    (T : option Z) : result (option tensor * nat * Z) :=
  ' (test_inputs', B, T') <-?
    match test_inputs with
    | None => Ok (None, 1, T)
    | Some ti =>
        ti' <-? reference_layout self ti ;;
        B <-? size_at ti' 0 ;;
        len <-? size_at ti' 1 ;;
        Ok (Some ti', B,
            Some match T with
                 | None => Z.of_nat len
                 | Some T0 => Z.max T0 (Z.of_nat len)
                 end)
    end ;;
  match T' with
  | None => Raise TypeError
  | Some T1 => Ok (test_inputs', B, T1)
  end.

(** Lines 251-262: local conditioning. *)
Definition prepare_local (self : StudentWaveNet) (c : option tensor) (T : Z)
  : result (option tensor) :=
  c' <-? upsample self c T ;;
  match c' with
  | None => Ok None
  | Some c0 =>
      n <-? size_at c0 (-1) ;;
      if (Z.of_nat n =? T)%Z
      then c1 <-? transpose c0 1 2 ;; Ok (Some c1)
      else Ok (Some c0)
  end.

(** Lines 265-273: the initial sample when the caller gives none. *)
Definition default_initial_input (self : StudentWaveNet) (B : nat)
  : result tensor :=
  if scalar_input self
  then Ok (zeros [B; 1; 1])
  else index_fill 3 (zeros [B; 1; out_channels self]) 2 127 1.

(** Lines 265-276. *)
Definition prepare_initial_input (self : StudentWaveNet) (B : nat)
    (initial_input : option tensor) : result tensor :=
  match initial_input with
  | None => default_initial_input self B
  | Some ii =>
      n <-? size_at ii 1 ;;
      if n =? out_channels self then transpose ii 1 2 else Ok ii
  end.


(** Lines 280-284: the input of step [t]. *)
Definition select_input (test_inputs : option tensor) (t : nat)
    (current_input : tensor) (outputs : list tensor) : result tensor :=
  let otherwise :=
    if 0 <? t
    then match rev outputs with
         | [] => Raise IndexError
         | x :: _ => Ok x
         end
    else Ok current_input in
  match test_inputs with
  | None => otherwise
  | Some ti =>
      len <-? size_at ti 1 ;;
      if t <? len
      then x <-? select 3 ti 1 t ;; unsqueeze x 1
      else otherwise
  end.

(** Line 287: [ct = None if c is None else c[:, t, :].unsqueeze(1)]. *)
Definition local_at (c : option tensor) (t : nat) : result (option tensor) :=
  match c with
  | None => Ok None
  | Some c0 => x <-? select 3 c0 1 t ;; y <-? unsqueeze x 1 ;; Ok (Some y)
  end.

(** Line 288: [gt = None if g is None else g_btc[:, t, :].unsqueeze(1)];
    subscripting [None] is a [TypeError]. *)
Definition global_at (g g_btc : option tensor) (t : nat)
  : result (option tensor) :=
  match g with
  | None => Ok None
  | Some _ =>
      match g_btc with
      | None => Raise TypeError
      | Some gb => x <-? select 3 gb 1 t ;; y <-? unsqueeze x 1 ;; Ok (Some y)
      end
  end.

(** Line 291: [x = self.first_conv.incremental_forward(x)]. *)
Definition first_conv_incremental (x : tensor) : M world tensor :=
  fun w =>
    let m := first_conv (net w) in
    match Conv1d1x1_incremental_forward m x with
    | Ok (y, buf) =>
        (Ok y, mkWorld (set_first_conv (net w) (set_c_buffer m buf)) (gen w))
    | Raise e => (Raise e, w)
    end.

(** Line 294: [x, h = f.incremental_forward(x, ct, gt)] for the block at
    position [k] of [self.conv_layers]. *)
Definition conv_layer_incremental (k : nat) (x : tensor) (ct gt : option tensor)
  : M world (tensor * tensor) :=
  fun w =>
    match getitem (conv_layers (net w)) k with
    | Raise e => (Raise e, w)
    | Ok f =>
        match ResidualConv1dGLU_incremental_forward f x ct gt (gen w) with
        | (Ok (x', h, buf), gen') =>
            (Ok (x', h),
             mkWorld (set_conv_layers (net w)
                        (list_set (conv_layers (net w)) k (set_glu_buffer f buf)))
                     gen')
        | (Raise e, gen') => (Raise e, mkWorld (net w) gen')
        end
    end.

(** Line 295:
    [skips = h if skips is None else (skips + h) * math.sqrt(0.5)]. *)
Definition accumulate_skip (skips : option tensor) (h : tensor) : result tensor :=
  match skips with
  | None => Ok h
  | Some sk => t <-? tadd sk h ;; Ok (tscale t (sqrt 0.5))
  end.

(** Lines 292-295, over the positions [ks] of [self.conv_layers]. *)
Fixpoint residual_loop (ks : list nat) (x : tensor) (ct gt : option tensor)
    (skips : option tensor) : M world (tensor * option tensor) :=
  match ks with
  | [] => ret (x, skips)
  | k :: ks' =>
      ' (x', h) <- conv_layer_incremental k x ct gt ;;
      skips' <- lift (accumulate_skip skips h) ;;
      residual_loop ks' x' ct gt (Some skips')
  end.

(** [f.incremental_forward(x)] for a member of a module list; [nn.ReLU] and
    [ConvTranspose2d] have no such method. *)
Definition module_incremental_forward (f : module) (x : tensor)
  : result (tensor * module) :=
  match f with
  | Conv1x1 m =>
      ' (y, buf) <-? Conv1d1x1_incremental_forward m x ;;
      Ok (y, Conv1x1 (set_c_buffer m buf))
  | ReLU | ConvT _ => Raise AttributeError
  end.

(** Lines 298-301:
    [try: x = f.incremental_forward(x) except AttributeError: x = f(x)]. *)
Definition head_apply (f : module) (x : tensor) : result (tensor * module) :=
  match module_incremental_forward f x with
  | Raise AttributeError => y <-? module_forward f x ;; Ok (y, f)
  | r => r
  end.

Fixpoint head_from (ks : list nat) (x : tensor) : M world tensor :=
  match ks with
  | [] => ret x
  | k :: ks' =>
      x' <- (fun w =>
               match last_conv_layers (net w) with
               | None => (Raise AttributeError, w)
               | Some fs =>
                   match f <-? getitem fs k ;; head_apply f x with
                   | Ok (y, f') =>
                       (Ok y,
                        mkWorld (set_last_conv_layers (net w)
                                   (Some (list_set fs k f')))
                                (gen w))
                   | Raise e => (Raise e, w)
                   end
               end) ;;
      head_from ks' x'
  end.

(** Lines 296-301: [x = skips], then
    [for f in self.last_conv_layers: ...].  With no residual block [skips] is
    [None]: a layer applied to it fails, and so does [x.view] after an empty
    loop. *)
Definition head_loop (skips : option tensor) : M world tensor :=
  fun w =>
    match last_conv_layers (net w) with
    | None => (Raise AttributeError, w)
    | Some fs =>
        match skips with
        | Some x => head_from (seq 0 (length fs)) x w
        | None =>
            match fs with
            | [] => (Raise AttributeError, w)
            | _ :: _ => (Raise TypeError, w)
            end
        end
    end.

(** Lines 304-313: the next sample. *)
Definition next_sample (self : StudentWaveNet) (a : IncArgs) (B : nat)
    (x : tensor) : M rng tensor :=
  if scalar_input self then
    xv <- lift (view x [Some B; None; Some 1]) ;;
    sample_from_discretized_mix_logistic xv (log_scale_min a)
  else
    xv <- lift (view x [Some B; None]) ;;
    p <- lift (if arg_softmax a then softmax xv else Ok xv) ;;
    if quantize a then
      flat <- lift (view p [None]) ;;
      sample <- np_random_choice (out_channels self) flat ;;
      lift (index_fill 2 (zero_ p) 1 sample 1)
    else ret p.

(** Lines 279-314: [for t in range(T)]. *)
Fixpoint generation_loop (a : IncArgs) (test_inputs c g g_btc : option tensor)
    (B : nat) (ts : list nat) (current_input : tensor) (outputs : list tensor)
  : M world (list tensor) :=
  match ts with
  | [] => ret outputs
  | t :: ts' =>
      current_input' <- lift (select_input test_inputs t current_input outputs) ;;
      ct <- lift (local_at c t) ;;
      gt <- lift (global_at g g_btc t) ;;
      x <- first_conv_incremental current_input' ;;
      self <- get_net ;;
      ' (_, skips) <-
        residual_loop (seq 0 (length (conv_layers self))) x ct gt None ;;
      x <- head_loop skips ;;
      self <- get_net ;;
      x <- on_gen (next_sample self a B x) ;;
      generation_loop a test_inputs c g g_btc B ts' current_input' (outputs ++ [x])
  end.

Definition incremental_forward (a : IncArgs) : M world tensor :=
  on_net clear_buffer ;;
  self <- get_net ;;
  ' (test_inputs', B, T) <-
    lift (resolve_steps self (test_inputs a) (arg_T a)) ;;
  g <- lift (embed_global self B (arg_g a)) ;;
  g_btc <- lift (expand_global_features B T g false) ;;
  c <- lift (prepare_local self (arg_c a) T) ;;
  initial <- lift (prepare_initial_input self B (initial_input a)) ;;
  outputs <-
    generation_loop a test_inputs' c g g_btc B (seq 0 (Z.to_nat T)) initial [] ;;
  out <- lift (stack outputs) ;;
  out <- lift (transpose out 0 1) ;;
  out <- lift (transpose out 1 2) ;;
  on_net clear_buffer ;;
  ret out.


(** ** Weight normalisation removal: [make_generation_fast_] *)

(** [nn.utils.remove_weight_norm(m)] on the weight of [m]: folds [g] and [v]
    into a plain weight, and raises [ValueError] when the weight carries no
    weight normalisation. *)
Definition nn_utils_remove_weight_norm (w : weight_param) : result weight_param :=
  match w with
  | WeightNormed g v => Ok (Plain (weight_norm v g))
  | Plain _ => Raise ValueError
  end.

(** The local function [remove_weight_norm]:
    [try: nn.utils.remove_weight_norm(m) except ValueError: return]. *)
Definition remove_weight_norm (w : weight_param) : result weight_param :=
  match nn_utils_remove_weight_norm w with
  | Raise ValueError => Ok w
  | r => r
  end.

Fixpoint remove_all (ws : list weight_param) : result (list weight_param) :=
  match ws with
  | [] => Ok []
  | w :: ws' =>
      w' <-? remove_weight_norm w ;;
      ws'' <-? remove_all ws' ;;
      Ok (w' :: ws'')
  end.

Definition apply_Conv1d1x1 (m : Conv1d1x1) : result Conv1d1x1 :=
  w <-? remove_weight_norm (c_weight m) ;;
  Ok (mkConv1d1x1 (c_in m) (c_out m) w (c_buffer m)).

(** The convolutions inside a residual block are its children; the block
    itself carries no weight normalisation and is skipped. *)
Definition apply_ResidualConv1dGLU (f : ResidualConv1dGLU)
  : result ResidualConv1dGLU :=
  ws <-? remove_all (glu_weights f) ;;
  Ok (mkResidualConv1dGLU (glu_residual_channels f) (glu_gate_channels f)
        (glu_kernel_size f) (glu_bias f) (glu_dilation f) (glu_dropout f)
        (glu_cin_channels f) (glu_gin_channels f) ws (glu_buffer f)).

Definition apply_module (f : module) : result module :=
  match f with
  | ReLU => Ok ReLU
  | Conv1x1 m => m' <-? apply_Conv1d1x1 m ;; Ok (Conv1x1 m')
  | ConvT m =>
      w <-? remove_weight_norm (ct_weight m) ;;
      Ok (ConvT (mkConvTranspose2d (ct_kernel_size m) (ct_padding m)
                   (ct_stride m) w))
  end.

Fixpoint apply_modules_list (fs : list module) : result (list module) :=
  match fs with
  | [] => Ok []
  | f :: fs' =>
      f' <-? apply_module f ;;
      fs'' <-? apply_modules_list fs' ;;
      Ok (f' :: fs'')
  end.

(** Visits the blocks of [convs] at positions [ks], in order. *)
Fixpoint apply_at (ks : list nat) (convs : list ResidualConv1dGLU)
  : result (list ResidualConv1dGLU) :=
  match ks with
  | [] => Ok convs
  | k :: ks' =>
      match nth_error convs k with
      | None => apply_at ks' convs
      | Some f =>
          f' <-? apply_ResidualConv1dGLU f ;;
          apply_at ks' (list_set convs k f')
      end
  end.

Definition apply_option (fs : option (list module)) : result (option (list module)) :=
  match fs with
  | None => Ok None
  | Some l => l' <-? apply_modules_list l ;; Ok (Some l')
  end.

(** [self.apply(remove_weight_norm)]: the function is applied to every
    registered sub-module, children first: [first_conv], the flow steps of
    [iaf_layers] (which reach the shared residual blocks), [conv_layers]
    (which reaches them again), [last_layer], the speaker embedding (no
    weight normalisation: skipped), [upsample_conv], a module list
    registered as [last_conv_layers] if there is one, and the network itself
    (skipped). *)
Definition make_generation_fast_ (self : StudentWaveNet) : result StudentWaveNet :=
  fc <-? apply_Conv1d1x1 (first_conv self) ;;
  convs <-? apply_at (concat (iaf_layers self)) (conv_layers self) ;;
  convs' <-? apply_at (seq 0 (length convs)) convs ;;
  ll <-? apply_modules_list (last_layer self) ;;
  up <-? apply_option (upsample_conv self) ;;
  lcl <-? apply_option (last_conv_layers self) ;;
  Ok (mkStudentWaveNet (scalar_input self) (out_channels self)
        (cin_channels self) (is_student self) (last_layers self)
        fc convs' (iaf_layers self) ll lcl
        (embed_speakers self) up (receptive_field self)).


(** ** The skip combination rule, as the specification writes it *)

(** The skip outputs [hs] produced when [x] goes through the blocks at
    positions [ks] of [conv_layers], one after the other, from state [w]. *)
Inductive skip_outputs (ct gt : option tensor)
  : list nat -> tensor -> world -> list tensor -> tensor -> world -> Prop :=
| skip_outputs_nil x w : skip_outputs ct gt [] x w [] x w
| skip_outputs_cons k ks x w x1 h w1 hs x' w' :
    conv_layer_incremental k x ct gt w = (Ok (x1, h), w1) ->
    skip_outputs ct gt ks x1 w1 hs x' w' ->
    skip_outputs ct gt (k :: ks) x w (h :: hs) x' w'.


(** *** The network with every weight normalisation folded in *)

Definition stripped (w : weight_param) : weight_param :=
  match w with
  | WeightNormed g v => Plain (weight_norm v g)
  | Plain w0 => Plain w0
  end.

Definition stripped_Conv1d1x1 (m : Conv1d1x1) : Conv1d1x1 :=
  mkConv1d1x1 (c_in m) (c_out m) (stripped (c_weight m)) (c_buffer m).

Definition stripped_glu (f : ResidualConv1dGLU) : ResidualConv1dGLU :=
  mkResidualConv1dGLU (glu_residual_channels f) (glu_gate_channels f)
    (glu_kernel_size f) (glu_bias f) (glu_dilation f) (glu_dropout f)
    (glu_cin_channels f) (glu_gin_channels f)
    (map stripped (glu_weights f)) (glu_buffer f).

(** A block that was visited, or not, strips to the same block. *)
Definition visited (f f' : ResidualConv1dGLU) : Prop :=
  stripped_glu f' = stripped_glu f.

Definition stripped_module (f : module) : module :=
  match f with
  | ReLU => ReLU
  | Conv1x1 m => Conv1x1 (stripped_Conv1d1x1 m)
  | ConvT m =>
      ConvT (mkConvTranspose2d (ct_kernel_size m) (ct_padding m) (ct_stride m)
               (stripped (ct_weight m)))
  end.

Definition stripped_net (self : StudentWaveNet) : StudentWaveNet :=
  mkStudentWaveNet (scalar_input self) (out_channels self) (cin_channels self)
    (is_student self) (last_layers self)
    (stripped_Conv1d1x1 (first_conv self))
    (map stripped_glu (conv_layers self)) (iaf_layers self)
    (map stripped_module (last_layer self))
    (option_map (map stripped_module) (last_conv_layers self))
    (embed_speakers self)
    (option_map (map stripped_module) (upsample_conv self))
    (receptive_field self).

End StudentWaveNet.

(** ** Streaming state

    The streaming path keeps input histories in [first_conv], in the blocks
    of [conv_layers] and in the layers of [last_conv_layers]; the batch path
    reads none of them. *)

Definition no_buffer (b : option tensor) : bool :=
  match b with None => true | Some _ => false end.

Definition module_buffer_cleared (f : module) : bool :=
  match f with
  | Conv1x1 m => no_buffer (c_buffer m)
  | ReLU | ConvT _ => true
  end.

Definition buffers_cleared (self : StudentWaveNet) : bool :=
  no_buffer (c_buffer (first_conv self)) &&
  forallb (fun f => no_buffer (glu_buffer f)) (conv_layers self) &&
  match last_conv_layers self with
  | None => true
  | Some fs => forallb module_buffer_cleared fs
  end.

(** The first skip output initialises the accumulator; every later one is
    combined as [(accumulator + h) * sqrt(0.5)]. *)
Definition skip_rule (hs : list R) : option R :=
  match hs with
  | [] => None
  | h1 :: rest =>
      Some (fold_left (fun acc h => ((acc + h) * sqrt 0.5)%R) rest h1)
  end.

(** ** Shape contracts of the convolution layers

    What the batch path needs to know about the shapes the collaborators
    produce: a 1x1 convolution maps [(B, c_in, T)] to [(B, c_out, T)], and the
    residual output of a residual block has the shape of its input. *)

Class ShapeContracts (collab : Collaborators) : Prop := {
  conv1x1_shape : forall m x y,
    Conv1d1x1_forward m x = Ok y ->
    exists B T, size x = [B; c_in m; T] /\ size y = [B; c_out m; T];
  glu_shape : forall f x c g gen y h gen',
    ResidualConv1dGLU_forward f x c g gen = (Ok (y, h), gen') ->
    size y = size x
}.

(** ** The flow composition rule, as the specification writes it

    [big_prod lo hi f] is the product of [f j] for [lo <= j < hi] and
    [big_sum n f] the sum of [f i] for [i < n]. *)

Definition prod_over (js : list nat) (f : nat -> R) : R :=
  fold_right (fun j acc => (f j * acc)%R) 1%R js.

Definition sum_over (js : list nat) (f : nat -> R) : R :=
  fold_right (fun i acc => (f i + acc)%R) 0%R js.

Definition big_prod (lo hi : nat) (f : nat -> R) : R := prod_over (seq lo (hi - lo)) f.

Definition big_sum (n : nat) (f : nat -> R) : R := sum_over (seq 0 n) f.

(** Entry [idx] of the [i]-th recorded tensor, read with broadcasting. *)
Definition entry (l : list tensor) (i : nat) (idx : index) : R :=
  tget (nth i l (zeros [])) idx.

(** total scale = product of all per-step scales *)
Definition total_scale (s : list tensor) (idx : index) : R :=
  big_prod 0 (length s) (fun i => entry s i idx).

(** total shift = sum over steps [i] of [mu_i] times the product of
    [scale_j] for [j > i] *)
Definition total_shift (s m : list tensor) (idx : index) : R :=
  big_sum (length s)
    (fun i => (entry m i idx * big_prod (i + 1) (length s) (fun j => entry s j idx))%R).

(** ** A small instance of the collaborators

    Shape-correct stand-ins for the layer classes, used to run the model on
    concrete inputs: a 1x1 convolution copies input channel 0 to every
    output channel and, having kernel size one, keeps no input history; a
    residual block returns its input both as residual and as skip output and
    keeps its last input as history; the random generators are a counter. *)

Definition toy_conv1x1 (m : Conv1d1x1) (x : tensor) : result tensor :=
  match size x with
  | [B; C; T] =>
      if C =? c_in m
      then Ok (mkTensor [B; c_out m; T]
                 (fun idx => match idx with
                             | [b; _; t] => data x [b; 0; t]
                             | _ => 0%R
                             end))
      else Raise RuntimeError
  | _ => Raise RuntimeError
  end.

Definition toy_conv1x1_incremental (m : Conv1d1x1) (x : tensor)
  : result (tensor * option tensor) :=
  match size x with
  | B :: _ => Ok (mkTensor [B; 1; c_out m] (fun _ => 0%R), c_buffer m)
  | [] => Raise RuntimeError
  end.

Definition toy_convT (m : ConvTranspose2d) (x : tensor) : result tensor :=
  match size x with
  | [B; one; C; T] =>
      Ok (mkTensor [B; one; C; T * Z.to_nat (snd (ct_stride m))] (fun _ => 0%R))
  | _ => Raise RuntimeError
  end.

Definition toy_embedding (e : Embedding) (x : tensor) : result tensor :=
  Ok (mkTensor (size x ++ [Z.to_nat (emb_dim e)]) (fun _ => 0%R)).

Definition toy_expand (B : nat) (T : Z) (g : option tensor) (bct : bool)
  : result (option tensor) :=
  match g with
  | None => Ok None
  | Some g0 =>
      match size g0 with
      | [_; C; _] =>
          Ok (Some (mkTensor (if bct then [B; C; Z.to_nat T] else [B; Z.to_nat T; C])
                             (fun _ => 0%R)))
      | _ => Raise RuntimeError
      end
  end.

Definition toy_sample (x : tensor) (log_scale_min : R) : M nat tensor :=
  fun gen =>
    match size x with
    | B :: _ => (Ok (mkTensor [B; 1] (fun _ => 0%R)), S gen)
    | [] => (Raise RuntimeError, gen)
    end.

(** Draws category 0; as [np.random.choice] does, it raises [ValueError]
    when there is no candidate or when [p] does not hold one probability
    per candidate. *)
Definition toy_choice (n : nat) (p : tensor) : M nat nat :=
  fun gen =>
    if (n =? 0) || negb (numel (size p) =? n)
    then (Raise ValueError, gen)
    else (Ok 0, S gen).

Definition toy : Collaborators := {|
  rng := nat;
  init_weight := fun sh => full sh 1%R;
  conv1x1_weight_normalization_default := true;
  glu_weight_shapes := fun residual gate k _ _ =>
    [[gate; residual; Z.to_nat k]; [residual; gate / 2; 1]; [residual; gate / 2; 1]];
  receptive_field_size := fun layers stacks k => ((k - 1) * layers + 1)%Z;
  weight_norm := fun v g => v;
  np_random_logistic := fun sz gen => (fun _ => 0%R, S gen);
  torch_rand := fun sz gen => (fun _ => 0%R, S gen);
  np_random_choice := toy_choice;
  softmax := fun x => Ok x;
  sample_from_discretized_mix_logistic := toy_sample;
  expand_global_features := toy_expand;
  Embedding_forward := toy_embedding;
  ConvTranspose2d_forward := toy_convT;
  Conv1d1x1_forward := toy_conv1x1;
  ResidualConv1dGLU_forward := fun f x c g gen => (Ok (x, x), gen);
  Conv1d1x1_incremental_forward := toy_conv1x1_incremental;
  ResidualConv1dGLU_incremental_forward := fun f x ct gt gen => (Ok (x, x, Some x), gen)
|}.

(** The network built from [Args.small] over the small instance. *)
Definition toy_net : StudentWaveNet :=
  match @__init__ toy Args.small with
  | Ok self => self
  | Raise _ =>
      mkStudentWaveNet true 0 0 true [] (mkConv1d1x1 0 0 (Plain (zeros [])) None)
        [] [] [] None None None 0
  end.

(** A [1 x 1 x 8] input, and another one of the same shape. *)
Definition toy_x : tensor := zeros [1; 1; 8].
Definition toy_x' : tensor := full [1; 1; 8] 1%R.

(** The same network in quantized one-hot mode ([scalar_input=False]), and a
    [1 x 2 x 3] input for it. *)
Definition onehot_args : Args.t :=
  Args.mk 2 2 1 [2; 2]%Z 4 4 3 (1 - 0.95)%R (-1) (-1) None true
          false None 3 false true.

Definition onehot_net : StudentWaveNet :=
  match @__init__ toy onehot_args with
  | Ok self => self
  | Raise _ => toy_net
  end.

Definition onehot_x : tensor := zeros [1; 2; 3].

(** The scalar network with the attribute [last_conv_layers] set to its
    output head ([__init__] stores the head as [last_layer] only). *)
Definition streaming_net : StudentWaveNet :=
  set_last_conv_layers toy_net (Some (last_layer toy_net)).

(** A network with two local conditioning channels, with
    [last_conv_layers] set likewise. *)
Definition cond_args : Args.t :=
  Args.mk 2 2 1 [2; 2]%Z 4 4 3 (1 - 0.95)%R 2 (-1) None true
          false None 3 true true.

Definition cond_net : StudentWaveNet :=
  match @__init__ toy cond_args with
  | Ok self => set_last_conv_layers self (Some (last_layer self))
  | Raise _ => streaming_net
  end.

Definition cond_world : @world toy := @mkWorld toy cond_net 0.

(** The state in which the examples call [incremental_forward]. *)
Definition streaming_world : @world toy := @mkWorld toy streaming_net 0.

(** [incremental_forward(T=2, test_inputs=r)] for a reference [r] of shape
    [1 x 1 x 5]. *)
Definition forced_args : IncArgs :=
  mkIncArgs None None None (Some 2%Z) (Some (zeros [1; 1; 5])) true true (-7).

(** [incremental_forward(c=c, T=3)] for a conditioning tensor [c] of shape
    [1 x 2 x 2] (two channels, two frames), whose time length is not [T]. *)
Definition short_c_args : IncArgs :=
  mkIncArgs None (Some (zeros [1; 2; 2])) None (Some 3%Z) None true true (-7).

(** [incremental_forward(T=8)] *)
Definition plain_args : IncArgs :=
  mkIncArgs None None None (Some 8%Z) None true true (-7).

(** What a run of [incremental_forward] is observed to do: the shape of the
    returned tensor, or the exception, and whether the streaming buffers
    are cleared afterwards. *)
Definition observe {collab : Collaborators} (r : result tensor * world)
  : result shape * bool :=
  (match fst r with Ok t => Ok (size t) | Raise e => Raise e end,
   buffers_cleared (net (snd r))).

(** A one-step input of four residual channels. *)
Definition toy_step_x : tensor := zeros [1; 1; 4].

(** ** Further specification functions *)

(** The references of the flow steps of sizes [sizes], the first one
    starting at position [start] of [conv_layers]; [range] of a negative
    size is empty. *)
Fixpoint steps_from (start : nat) (sizes : list Z) : list (list nat) :=
  match sizes with
  | [] => []
  | n :: sizes' =>
      seq start (Z.to_nat n) :: steps_from (start + Z.to_nat n) sizes'
  end.

(** The weights of a module, and of the whole network, that
    [make_generation_fast_] visits. *)
Definition module_weights (f : module) : list weight_param :=
  match f with
  | ReLU => []
  | Conv1x1 m => [c_weight m]
  | ConvT m => [ct_weight m]
  end.

Definition option_modules (fs : option (list module)) : list module :=
  match fs with Some l => l | None => [] end.

Definition net_weights (self : StudentWaveNet) : list weight_param :=
  c_weight (first_conv self)
  :: flat_map glu_weights (conv_layers self)
  ++ flat_map module_weights (last_layer self)
  ++ flat_map module_weights (option_modules (upsample_conv self))
  ++ flat_map module_weights (option_modules (last_conv_layers self)).

Definition is_plain (w : weight_param) : bool :=
  match w with Plain _ => true | WeightNormed _ _ => false end.

(** The residual block [__init__] creates for [layer] (the position inside
    its flow step). *)
Definition block {collab : Collaborators} (a : Args.t) (layers_per_stack : Z)
    (layer : Z) : ResidualConv1dGLU :=
  new_ResidualConv1dGLU (Args.residual_channels a) (Args.gate_channels a)
    (Args.kernel_size a) (py_pow2 (layer mod layers_per_stack)) (Args.dropout a)
    (Args.cin_channels a) (Args.gin_channels a) (Args.weight_normalization a).

(** [f.clear_buffer()] under [try ... except AttributeError: pass]. *)
Definition cleared_module (f : module) : module :=
  match f with
  | Conv1x1 m => Conv1x1 (Conv1d1x1_clear_buffer m)
  | ReLU | ConvT _ => f
  end.

(** The streaming history of a member of [last_conv_layers]; a member
    without one ([nn.ReLU]) counts as [None]. *)
Definition module_buffer (f : module) : option tensor :=
  match f with
  | Conv1x1 m => c_buffer m
  | ReLU | ConvT _ => None
  end.

(** The network [clear_buffer] leaves behind, whether it raises or not. *)
Definition cleared_net (self : StudentWaveNet) : StudentWaveNet :=
  mkStudentWaveNet (scalar_input self) (out_channels self) (cin_channels self)
    (is_student self) (last_layers self)
    (Conv1d1x1_clear_buffer (first_conv self))
    (map ResidualConv1dGLU_clear_buffer (conv_layers self)) (iaf_layers self)
    (last_layer self)
    (option_map (map cleared_module) (last_conv_layers self))
    (embed_speakers self) (upsample_conv self) (receptive_field self).

(** Arguments with no flow step, and the network built from them with
    [last_conv_layers] set to its head. *)
Definition no_block_args : Args.t :=
  Args.mk 2 2 1 [] 4 4 3 (1 - 0.95)%R (-1) (-1) None true
          false None 3 true true.

Definition no_block_net : StudentWaveNet :=
  match @__init__ toy no_block_args with
  | Ok self => set_last_conv_layers self (Some (last_layer self))
  | Raise _ => streaming_net
  end.

(** [incremental_forward(T=None)] *)
Definition no_T_args : IncArgs :=
  mkIncArgs None None None None None true true (-7).

(** A global conditioning input: one speaker index. *)
Definition toy_g : tensor := zeros [1; 1].

(** A teacher-forcing reference in channel-major layout, [1 x 1 x 5], with
    entry [t] at time [t]. *)
Definition ramp : tensor :=
  mkTensor [1; 1; 5] (fun idx => INR (nth 2 idx 0)).

(** A conditioning tensor of two channels and three frames. *)
Definition toy_c : tensor :=
  mkTensor [1; 2; 3] (fun idx => INR (nth 1 idx 0 * 10 + nth 2 idx 0)).

(** The channel count of one sample: 1 for scalar input, [out_channels] for
    one-hot input. *)
Definition channels (self : StudentWaveNet) : nat :=
  if scalar_input self then 1 else out_channels self.

(** The same call with another [initial_input]. *)
Definition with_initial_input (a : IncArgs) (ii : option tensor) : IncArgs :=
  mkIncArgs ii (arg_c a) (arg_g a) (arg_T a) (test_inputs a) (arg_softmax a)
            (quantize a) (log_scale_min a).

(** Arguments with local conditioning upsampled by the scales 2 and 4, and
    the network built from them. *)
Definition upsampled_args : Args.t :=
  Args.mk 2 2 1 [2; 2]%Z 4 4 3 (1 - 0.95)%R 2 (-1) None true
          true (Some [2; 4]%Z) 3 true true.

Definition upsampled_net : StudentWaveNet :=
  match @__init__ toy upsampled_args with
  | Ok self => self
  | Raise _ => toy_net
  end.

(** ** Contracts of the sampling collaborators

    What the sampling step needs to know about NumPy and PyTorch:
    [np.random.choice(np.arange(n), p=p)] raises [ValueError] unless [p]
    holds exactly [n] probabilities, and [F.softmax] keeps the shape of its
    input. *)

Class SamplingContracts (collab : Collaborators) : Prop := {
  choice_size : forall n p gen,
    numel (size p) <> n -> fst (np_random_choice n p gen) = Raise ValueError;
  softmax_size : forall x y, softmax x = Ok y -> size y = size x
}.

(** [incremental_forward(T=8, softmax=False)] *)
Definition no_softmax_args : IncArgs :=
  mkIncArgs None None None (Some 8%Z) None false true (-7).
(** * Properties *)

(** *** Reading broadcast results *)

Lemma clamp_rev_idem sh idx : clamp_rev sh (clamp_rev sh idx) = clamp_rev sh idx.
Proof.
  revert idx; induction sh as [|d sh IH]; intros [|i idx]; simpl; auto.
  rewrite IH. destruct (d =? 1); reflexivity.
Qed.

Lemma clamp_rev_broadcast_l a : forall b c idx,
  broadcast_rev a b = Some c ->
  clamp_rev a (clamp_rev c idx) = clamp_rev a idx.
Proof.
  induction a as [|x a IH]; intros b c idx H.
  - reflexivity.
  - destruct b as [|y b].
    + simpl in H. injection H as <-. apply clamp_rev_idem.
    + simpl in H. destruct (broadcast_rev a b) as [c'|] eqn:E; [|discriminate].
      destruct idx as [|i idx]; [destruct c; reflexivity|].
      destruct (Nat.eqb_spec x y) as [->|Hxy].
      * injection H as <-. simpl. rewrite (IH _ _ idx E).
        destruct (y =? 1); reflexivity.
      * destruct (Nat.eqb_spec x 1) as [->|Hx1].
        -- injection H as <-. simpl. rewrite (IH _ _ idx E). reflexivity.
        -- destruct (Nat.eqb_spec y 1) as [->|Hy1]; [|discriminate].
           injection H as <-. simpl. rewrite (IH _ _ idx E).
           destruct (Nat.eqb_spec x 1); [contradiction|reflexivity].
Qed.

Lemma clamp_rev_broadcast_r b : forall a c idx,
  broadcast_rev a b = Some c ->
  clamp_rev b (clamp_rev c idx) = clamp_rev b idx.
Proof.
  induction b as [|y b IH]; intros a c idx H.
  - destruct c; reflexivity.
  - destruct a as [|x a].
    + simpl in H. injection H as <-. apply clamp_rev_idem.
    + simpl in H. destruct (broadcast_rev a b) as [c'|] eqn:E; [|discriminate].
      destruct idx as [|i idx]; [destruct c; reflexivity|].
      destruct (Nat.eqb_spec x y) as [->|Hxy].
      * injection H as <-. simpl. rewrite (IH _ _ idx E).
        destruct (y =? 1); reflexivity.
      * destruct (Nat.eqb_spec x 1) as [->|Hx1].
        -- injection H as <-. simpl. rewrite (IH _ _ idx E).
           destruct (y =? 1); reflexivity.
        -- destruct (Nat.eqb_spec y 1) as [->|Hy1]; [|discriminate].
           injection H as <-. simpl. rewrite (IH _ _ idx E). reflexivity.
Qed.

Lemma tget_tzip f a b c :
  tzip f a b = Ok c -> forall idx, tget c idx = f (tget a idx) (tget b idx).
Proof.
  unfold tzip, broadcast_shapes. intros H idx.
  destruct (broadcast_rev (rev (size a)) (rev (size b))) as [sh|] eqn:E;
    simpl in H; [|discriminate].
  injection H as <-. unfold tget at 1. simpl. unfold tget, bindex.
  rewrite !rev_involutive.
  rewrite (@clamp_rev_broadcast_l _ _ _ _ E), (@clamp_rev_broadcast_r _ _ _ _ E).
  reflexivity.
Qed.

Lemma tget_full sh v idx : tget (full sh v) idx = v.
Proof. reflexivity. Qed.

Lemma broadcast_rev_same a : broadcast_rev a a = Some a.
Proof.
  induction a as [|x a IH]; simpl; [reflexivity|].
  rewrite IH, Nat.eqb_refl. reflexivity.
Qed.

Lemma broadcast_shapes_same a : broadcast_shapes a a = Some a.
Proof.
  unfold broadcast_shapes. rewrite broadcast_rev_same. simpl.
  rewrite rev_involutive. reflexivity.
Qed.

Lemma tzip_same_size f a b :
  size a = size b ->
  exists c, tzip f a b = Ok c /\ size c = size a.
Proof.
  intros H. unfold tzip. rewrite <- H, broadcast_shapes_same.
  eexists. split; reflexivity.
Qed.


(** ** Inversion of monadic steps *)

Lemma rbind_ok_inv {A B} (r : result A) (k : A -> result B) b :
  rbind r k = Ok b -> exists a, r = Ok a /\ k a = Ok b.
Proof. destruct r as [a|e]; simpl; [eauto | discriminate]. Qed.

Lemma bind_ok_inv {S A B} (c : M S A) (k : A -> M S B) s b s' :
  bind c k s = (Ok b, s') ->
  exists a s1, c s = (Ok a, s1) /\ k a s1 = (Ok b, s').
Proof.
  unfold bind. destruct (c s) as [[a|e] s1]; [eauto | discriminate].
Qed.

Lemma lift_ok_inv {S A} (r : result A) (s : S) a s' :
  lift r s = (Ok a, s') -> r = Ok a /\ s' = s.
Proof. unfold lift. intros H. injection H as -> ->. auto. Qed.

Lemma rassert_ok_inv b u : rassert b = Ok u -> b = true.
Proof. destruct b; [reflexivity | discriminate]. Qed.

Ltac inv_ok H :=
  repeat match type of H with
  | bind _ _ _ = (Ok _, _) =>
      let a := fresh "a" in let s1 := fresh "g" in
      let H1 := fresh "H" in
      apply bind_ok_inv in H; destruct H as (a & s1 & H1 & H)
  | rbind _ _ = Ok _ =>
      let a := fresh "a" in let H1 := fresh "H" in
      apply rbind_ok_inv in H; destruct H as (a & H1 & H)
  | (match ?x with (_, _) => _ end) _ = (Ok _, _) => destruct x
  | match ?x with (_, _) => _ end = Ok _ => destruct x
  end.

Ltac inv_lift :=
  repeat match goal with
  | H : lift _ _ = (Ok _, _) |- _ =>
      apply lift_ok_inv in H; let E := fresh "E" in destruct H as [H E]; subst
  end.

(** ** Construction *)

Section Construction.

Context {collab : Collaborators}.

Lemma build_iaf_layer_ok a lps : lps <> 0%Z -> forall ls convs iaf,
  exists r, build_iaf_layer a lps ls convs iaf = Ok r.
Proof.
  intros Hl ls. induction ls as [|layer ls IH]; intros convs iaf; simpl.
  - eauto.
  - unfold py_mod. destruct (Z.eqb_spec lps 0); [contradiction|]. simpl. apply IH.
Qed.

Lemma build_iaf_layers_ok a lps : lps <> 0%Z -> forall sizes convs iafs,
  exists r, build_iaf_layers a lps sizes convs iafs = Ok r.
Proof.
  intros Hl sizes. induction sizes as [|n sizes IH]; intros convs iafs; simpl.
  - eauto.
  - destruct (build_iaf_layer_ok a lps Hl (range n) convs []) as [[convs' iaf] ->].
    simpl. apply IH.
Qed.

Lemma build_iaf_layer_no_assert a lps : forall ls convs iaf,
  build_iaf_layer a lps ls convs iaf <> Raise AssertionError.
Proof.
  intros ls. induction ls as [|layer ls IH]; intros convs iaf; simpl.
  - discriminate.
  - unfold py_mod. destruct (lps =? 0)%Z; simpl; [discriminate | apply IH].
Qed.

Lemma build_iaf_layers_no_assert a lps : forall sizes convs iafs,
  build_iaf_layers a lps sizes convs iafs <> Raise AssertionError.
Proof.
  intros sizes. induction sizes as [|n sizes IH]; intros convs iafs; simpl.
  - discriminate.
  - destruct (build_iaf_layer a lps (range n) convs []) as [[convs' iaf]|e] eqn:E;
      simpl; [apply IH|].
    intros H. injection H as ->. exact (build_iaf_layer_no_assert _ _ _ _ _ E).
Qed.

Lemma init_succeeds (a : Args.t) :
  (Args.stacks a <> 0)%Z -> (Args.layers a mod Args.stacks a = 0)%Z ->
  ((Args.gin_channels a > 0)%Z -> Args.n_speakers a <> None) ->
  (Args.layers a <> 0)%Z ->
  (Args.upsample_conditional_features a = true -> Args.upsample_scales a <> None) ->
  exists self, __init__ a = Ok self.
Proof.
  intros H0 Hm Hs Hl Hu. unfold __init__, py_mod, py_floordiv.
  destruct (Z.eqb_spec (Args.stacks a) 0); [contradiction|]. simpl.
  rewrite Hm. simpl.
  assert (Hlps : (Args.layers a / Args.stacks a <> 0)%Z).
  { intros Hq. apply Hl.
    rewrite (Z.div_mod (Args.layers a) (Args.stacks a)) by assumption.
    rewrite Hq, Hm. lia. }
  destruct (build_iaf_layers_ok a _ Hlps (Args.iaf_layer_size a) [] [])
    as [[convs iafs] ->]. simpl.
  unfold build_embed_speakers, build_upsample_conv.
  destruct (Z.gtb_spec (Args.gin_channels a) 0) as [Hg|Hg].
  + destruct (Args.n_speakers a) eqn:En; [|exfalso; apply Hs; [lia|reflexivity]].
    simpl. destruct (Args.upsample_conditional_features a).
    * destruct (Args.upsample_scales a); [|exfalso; apply Hu; reflexivity].
      simpl. eexists; reflexivity.
    * simpl. eexists; reflexivity.
  + simpl. destruct (Args.upsample_conditional_features a).
    * destruct (Args.upsample_scales a); [|exfalso; apply Hu; reflexivity].
      simpl. eexists; reflexivity.
    * simpl. eexists; reflexivity.
Qed.

Lemma init_last_conv_layers (a : Args.t) (self : StudentWaveNet) :
  __init__ a = Ok self -> last_conv_layers self = None.
Proof.
  unfold __init__. intros H. inv_ok H. injection H as <-. reflexivity.
Qed.

(** C5: construction raises when the layer count is not evenly divisible by
    the stack count ([AssertionError], or [ZeroDivisionError] for a zero
    stack count), and when global conditioning is enabled without a speaker
    count; no network is returned in either case.  When both contracts hold
    the two assertions do not fire, and construction returns a network as
    soon as the layer count is not zero and upsampling, if requested, comes
    with its scale list. *)
Theorem construction_contracts (a : Args.t) :
  ((Args.stacks a = 0 \/ Args.layers a mod Args.stacks a <> 0)%Z ->
   is_raise (__init__ a)) /\
  ((Args.stacks a <> 0 /\ Args.layers a mod Args.stacks a <> 0)%Z ->
   __init__ a = Raise AssertionError) /\
  ((Args.gin_channels a > 0)%Z /\ Args.n_speakers a = None ->
   is_raise (__init__ a)) /\
  ((Args.stacks a <> 0)%Z /\ (Args.layers a mod Args.stacks a = 0)%Z /\
   ((Args.gin_channels a > 0)%Z -> Args.n_speakers a <> None) ->
   __init__ a <> Raise AssertionError /\
   ((Args.layers a <> 0)%Z ->
    (Args.upsample_conditional_features a = true ->
     Args.upsample_scales a <> None) ->
    exists self, __init__ a = Ok self)).
Proof.
  unfold __init__, py_mod, py_floordiv.
  repeat split.
  - intros [H0 | Hm].
    + rewrite H0. simpl. exact I.
    + destruct (Z.eqb_spec (Args.stacks a) 0); simpl; [exact I|].
      destruct (Z.eqb_spec (Args.layers a mod Args.stacks a) 0); [contradiction|].
      simpl. exact I.
  - intros [H0 Hm].
    destruct (Z.eqb_spec (Args.stacks a) 0); [contradiction|]. simpl.
    destruct (Z.eqb_spec (Args.layers a mod Args.stacks a) 0); [contradiction|].
    reflexivity.
  - intros [Hg Hn].
    destruct (Args.stacks a =? 0)%Z; simpl; [exact I|].
    destruct (Args.layers a mod Args.stacks a =? 0)%Z; simpl; [|exact I].
    destruct (build_iaf_layers _ _ _ _ _) as [[convs iafs]|e]; simpl; [|exact I].
    unfold build_embed_speakers. rewrite Hn.
    destruct (Z.gtb_spec (Args.gin_channels a) 0); [simpl; exact I | lia].
  - destruct H as (H0 & Hm & Hs).
    destruct (Z.eqb_spec (Args.stacks a) 0); [contradiction|]. simpl.
    rewrite Hm. simpl.
    destruct (build_iaf_layers _ _ _ _ _) as [[convs iafs]|e] eqn:E; simpl.
    + unfold build_embed_speakers.
      destruct (Z.gtb_spec (Args.gin_channels a) 0) as [Hg|Hg].
      * destruct (Args.n_speakers a) eqn:En; [|exfalso; apply Hs; [lia|reflexivity]].
        simpl. unfold build_upsample_conv.
        destruct (Args.upsample_conditional_features a);
          [destruct (Args.upsample_scales a)|]; simpl; discriminate.
      * simpl. unfold build_upsample_conv.
        destruct (Args.upsample_conditional_features a);
          [destruct (Args.upsample_scales a)|]; simpl; discriminate.
    + intros H. injection H as ->. exact (build_iaf_layers_no_assert _ _ _ _ _ E).
  - destruct H as (H0 & Hm & Hs). intros Hl Hu.
    apply init_succeeds; assumption.
Qed.

End Construction.

(** ** The batch flow path *)

Section Flow.

Context {collab : Collaborators}.

Lemma getitem_nth {A} (l : list A) i a d : getitem l i = Ok a -> nth i l d = a.
Proof.
  unfold getitem. destruct (nth_error l i) eqn:E; [|discriminate].
  intros H. injection H as <-. apply nth_error_nth. exact E.
Qed.

Lemma rand_filled_inv sz v gen t gen' :
  rand_filled sz v gen = (Ok t, gen') -> t = full sz v.
Proof.
  unfold rand_filled. destruct (torch_rand sz gen). intros H.
  injection H as <- _. reflexivity.
Qed.

Lemma scale_after_spec s : forall js ss r,
  scale_after s js ss = Ok r ->
  forall idx, tget r idx = (tget ss idx * prod_over js (fun j => entry s j idx))%R.
Proof.
  induction js as [|j js IH]; intros ss r H idx; simpl in *.
  - injection H as <-. lra.
  - inv_ok H. rewrite (IH _ _ H idx). unfold tmul in H1.
    rewrite (tget_tzip _ _ _ _ H1). unfold entry.
    rewrite (getitem_nth _ _ _ (zeros []) H0). lra.
Qed.

Lemma compose_steps_spec zsize s m : forall ids mu0 sc0 gen mu sc gen',
  compose_steps zsize s m ids mu0 sc0 gen = (Ok (mu, sc), gen') ->
  forall idx,
    tget sc idx = (tget sc0 idx * prod_over ids (fun i => entry s i idx))%R /\
    tget mu idx =
      (tget mu0 idx +
       sum_over ids (fun i =>
         entry m i idx *
         prod_over (range2 (i + 1) (length s)) (fun j => entry s j idx)))%R.
Proof.
  induction ids as [|i ids IH]; intros mu0 sc0 gen mu sc gen' H idx; simpl in H.
  - injection H as <- <- _. simpl. split; lra.
  - inv_ok H. inv_lift.
    apply rand_filled_inv in H0. subst.
    destruct (IH _ _ _ _ _ _ H idx) as [Hsc Hmu].
    apply (getitem_nth _ _ _ (zeros [])) in H2, H5. subst.
    unfold tmul, tadd in *.
    rewrite Hsc, Hmu.
    rewrite (tget_tzip _ _ _ _ H6), (tget_tzip _ _ _ _ H4), (tget_tzip _ _ _ _ H3).
    rewrite (scale_after_spec _ _ _ _ H1 idx), tget_full.
    unfold entry. simpl. split; lra.
Qed.

Lemma flow_steps_length self c g_bct : forall iafs z s0 m0 gen z' s m gen',
  flow_steps self c g_bct iafs z s0 m0 gen = (Ok (z', s, m), gen') ->
  length s = length s0 + length iafs /\ length m = length m0 + length iafs.
Proof.
  induction iafs as [|iaf iafs IH]; intros z s0 m0 gen z' s m gen' H; simpl in H.
  - injection H as _ <- <- _. simpl. lia.
  - inv_ok H. destruct (IH _ _ _ _ _ _ _ _ H) as [Hs Hm].
    rewrite Hs, Hm, !length_app. simpl. lia.
Qed.

Lemma compose_steps_total_rule zsize sh s m gen mu sc gen' :
  compose_steps zsize s m (range2 0 (length s)) (full sh 0) (full sh 1) gen
    = (Ok (mu, sc), gen') ->
  forall idx,
    tget sc idx = total_scale s idx /\ tget mu idx = total_shift s m idx.
Proof.
  intros H idx. destruct (compose_steps_spec _ _ _ _ _ _ _ _ _ _ H idx) as [Hsc Hmu].
  rewrite Hsc, Hmu, !tget_full.
  unfold total_scale, total_shift, big_prod, big_sum, range2.
  rewrite !Nat.sub_0_r. split; lra.
Qed.

(** Whenever the recorded tensors and the accumulators have one common
    shape, the second loop returns. *)
Lemma compose_steps_returns sh s m :
  length m = length s ->
  Forall (fun t => size t = sh) s -> Forall (fun t => size t = sh) m ->
  forall ids mu0 sc0 gen,
    Forall (fun i => i < length s) ids ->
    size mu0 = sh -> size sc0 = sh ->
    exists mu sc gen',
      compose_steps sh s m ids mu0 sc0 gen = (Ok (mu, sc), gen') /\
      size mu = sh /\ size sc = sh.
Proof.
  intros Hlen Hs Hm.
  assert (Hafter : forall js ss, Forall (fun j => j < length s) js -> size ss = sh ->
            exists r, scale_after s js ss = Ok r /\ size r = sh).
  { induction js as [|j js IH]; intros ss Hjs Hss; simpl.
    - eauto.
    - apply Forall_cons_iff in Hjs. destruct Hjs as [Hj Hjs'].
      destruct (nth_error s j) as [sj|] eqn:E;
        [|apply nth_error_None in E; lia].
      unfold getitem. rewrite E. simpl.
      assert (Hsj : size sj = size ss).
      { rewrite Forall_forall in Hs. rewrite Hss. apply Hs. eapply nth_error_In, E. }
      destruct (tzip_same_size Rmult ss sj) as (r & Hr & Hsz); [congruence|].
      unfold tmul. rewrite Hr. simpl. apply IH; [assumption | congruence]. }
  induction ids as [|i ids IH]; intros mu0 sc0 gen Hids Hmu0 Hsc0; simpl.
  - do 3 eexists. split; [reflexivity | auto].
  - apply Forall_cons_iff in Hids. destruct Hids as [Hi Hids'].
    unfold bind at 1. unfold rand_filled at 1.
    destruct (torch_rand sh gen) as [d gen1].
    destruct (Hafter (range2 (i + 1) (length s)) (fill_ (mkTensor sh d) 1))
      as (ss & Hss & Hsz).
    { unfold range2. apply Forall_forall. intros j Hj. apply in_seq in Hj. lia. }
    { reflexivity. }
    unfold bind at 1. unfold lift at 1. rewrite Hss.
    destruct (nth_error m i) as [mi|] eqn:Em; [|apply nth_error_None in Em; lia].
    destruct (nth_error s i) as [si|] eqn:Es; [|apply nth_error_None in Es; lia].
    assert (Hmi : size mi = sh).
    { rewrite Forall_forall in Hm. apply Hm. eapply nth_error_In, Em. }
    assert (Hsi : size si = sh).
    { rewrite Forall_forall in Hs. apply Hs. eapply nth_error_In, Es. }
    unfold bind at 1. unfold lift at 1, getitem at 1. rewrite Em.
    destruct (tzip_same_size Rmult mi ss) as (t & Ht & Htz); [congruence|].
    unfold bind at 1. unfold lift at 1, tmul at 1. rewrite Ht.
    destruct (tzip_same_size Rplus mu0 t) as (mu1 & Hmu1 & Hmz); [congruence|].
    unfold bind at 1. unfold lift at 1, tadd at 1. rewrite Hmu1.
    unfold bind at 1. unfold lift at 1, getitem at 1. rewrite Es.
    destruct (tzip_same_size Rmult sc0 si) as (sc1 & Hsc1 & Hscz); [congruence|].
    unfold bind at 1. unfold lift at 1, tmul at 1. rewrite Hsc1.
    apply IH; [assumption | congruence | congruence].
Qed.

(** C1: whenever [forward] returns, the per-step scales [s] and shifts [m]
    recorded by its first loop (one pair per flow step) are such that every
    entry of the returned total scale is the product over all steps of the
    entries of [s_i], and every entry of the returned total shift is the sum
    over steps [i] of the entry of [m_i] times the product of the entries of
    [s_j] for [j > i]. *)
Theorem flow_composition_rule (self : StudentWaveNet) (x : tensor)
    (c g : option tensor) (softmax : bool) (gen gen' : rng)
    (mu_tot scale_tot : tensor) :
  forward self x c g softmax gen = (Ok (mu_tot, scale_tot), gen') ->
  exists (c' g_bct : option tensor) (z0 z : tensor) (s m : list tensor)
         (gen1 gen2 : rng),
    flow_steps self c' g_bct (iaf_layers self) z0 [] [] gen1
      = (Ok (z, s, m), gen2) /\
    length s = length (iaf_layers self) /\
    length m = length (iaf_layers self) /\
    forall idx,
      tget scale_tot idx = total_scale s idx /\
      tget mu_tot idx = total_shift s m idx.
Proof.
  unfold forward. intros H.
  destruct (size x) as [|B [|C [|T [|]]]] eqn:Ex; try discriminate.
  inv_ok H. inv_lift.
  repeat match goal with
  | Hr : rand_filled _ _ _ = _ |- _ => apply rand_filled_inv in Hr
  end. subst.
  match goal with
  | Hf : flow_steps _ _ _ _ _ _ _ _ = _ |- _ =>
      destruct (flow_steps_length _ _ _ _ _ _ _ _ _ _ _ _ Hf) as [Hs Hm];
      do 8 eexists; split; [exact Hf|]
  end.
  split; [exact Hs|]. split; [exact Hm|].
  intros idx. eapply compose_steps_total_rule. eassumption.
Qed.

End Flow.

(** The theorem applies to a run of the two-layer network on a
    [1 x 1 x 8] input, which returns. *)
Lemma flow_composition_rule_witness :
  exists mu sc gen',
    @forward toy toy_net toy_x None None false 0 = (Ok (mu, sc), gen') /\
    exists (c' g_bct : option tensor) (z0 z : tensor) (s m : list tensor)
           (gen1 gen2 : nat),
      @flow_steps toy toy_net c' g_bct (iaf_layers toy_net) z0 [] [] gen1
        = (Ok (z, s, m), gen2) /\
      length s = length (iaf_layers toy_net) /\
      length m = length (iaf_layers toy_net) /\
      forall idx,
        tget sc idx = total_scale s idx /\
        tget mu idx = total_shift s m idx.
Proof.
  do 3 eexists. split; [reflexivity|].
  exact (@flow_composition_rule toy toy_net toy_x None None false 0 _ _ _ eq_refl).
Defined.

(** ** Determinism of the batch path *)

(** C7: [forward] reads its input [x] only through [x.size()].  Two calls
    from the same state of the random generators, with the same network and
    conditioning and with inputs of the same shape, return the same pair
    (and leave the generators in the same state), whatever the entries of
    [x] are. *)
Theorem forward_depends_on_shape_only {collab : Collaborators}
    (self : StudentWaveNet) (x x' : tensor) (c g : option tensor)
    (softmax : bool) (gen : rng) :
  size x = size x' ->
  forward self x c g softmax gen = forward self x' c g softmax gen.
Proof.
  intros H. unfold forward. rewrite H. reflexivity.
Qed.

Lemma forward_depends_on_shape_only_witness :
  size toy_x = size toy_x' /\
  data toy_x [0; 0; 0] <> data toy_x' [0; 0; 0] /\
  @forward toy toy_net toy_x None None false 0
    = @forward toy toy_net toy_x' None None false 0.
Proof.
  split; [reflexivity|]. split; [simpl; lra|].
  exact (@forward_depends_on_shape_only toy toy_net toy_x toy_x' None None
           false 0 eq_refl).
Defined.

(** ** Shapes in the batch path *)

Lemma tzip_size f a b c :
  tzip f a b = Ok c -> broadcast_shapes (size a) (size b) = Some (size c).
Proof.
  unfold tzip. destruct (broadcast_shapes (size a) (size b)); [|discriminate].
  intros H. injection H as <-. reflexivity.
Qed.

Lemma broadcast_channel_l B C T :
  broadcast_shapes [B; C; T] [B; 1; T] = Some [B; C; T].
Proof.
  unfold broadcast_shapes. simpl. rewrite !Nat.eqb_refl.
  destruct (C =? 1); reflexivity.
Qed.

Lemma broadcast_channel_r B C T :
  broadcast_shapes [B; 1; T] [B; C; T] = Some [B; C; T].
Proof.
  unfold broadcast_shapes. simpl. rewrite !Nat.eqb_refl.
  destruct C as [|[|C]]; reflexivity.
Qed.

Lemma tzip_channel_l f a b c B C T :
  size a = [B; C; T] -> size b = [B; 1; T] -> tzip f a b = Ok c ->
  size c = [B; C; T].
Proof.
  intros Ha Hb H. apply tzip_size in H.
  rewrite Ha, Hb, broadcast_channel_l in H. congruence.
Qed.

Lemma tzip_channel_r f a b c B C T :
  size a = [B; 1; T] -> size b = [B; C; T] -> tzip f a b = Ok c ->
  size c = [B; C; T].
Proof.
  intros Ha Hb H. apply tzip_size in H.
  rewrite Ha, Hb, broadcast_channel_r in H. congruence.
Qed.

Lemma tzip_same f a b c sh :
  size a = sh -> size b = sh -> tzip f a b = Ok c -> size c = sh.
Proof.
  intros Ha Hb H. apply tzip_size in H.
  rewrite Ha, Hb, broadcast_shapes_same in H. congruence.
Qed.

Lemma getitem_In {A} (l : list A) i a : getitem l i = Ok a -> In a l.
Proof.
  unfold getitem. destruct (nth_error l i) eqn:E; [|discriminate].
  intros H. injection H as <-. eapply nth_error_In, E.
Qed.

Section Shapes.

Context {collab : Collaborators} {contracts : ShapeContracts collab}.

Lemma init_last_layer (a : Args.t) (self : StudentWaveNet) :
  __init__ a = Ok self ->
  last_layer self =
    [ReLU;
     Conv1x1 (new_Conv1d1x1 (Args.residual_channels a) (Args.out_channels a)
                (Some (Args.weight_normalization a)))].
Proof.
  unfold __init__. intros H. inv_ok H. injection H as <-. reflexivity.
Qed.

Lemma run_iaf_size self c g : forall iaf z gen y gen',
  run_iaf self iaf z c g gen = (Ok y, gen') -> size y = size z.
Proof.
  induction iaf as [|k iaf IH]; intros z gen y gen' H; simpl in H.
  - injection H as <- _. reflexivity.
  - inv_ok H. inv_lift. rewrite (IH _ _ _ _ H).
    eapply glu_shape. eassumption.
Qed.

Lemma flow_step_shapes self head c g iaf z gen mu_f scale_f z' gen' B C T :
  last_layer self = [ReLU; Conv1x1 head] -> c_out head = 2 ->
  size z = [B; C; T] ->
  flow_step self c g iaf z gen = (Ok (mu_f, scale_f, z'), gen') ->
  size mu_f = [B; 1; T] /\ size scale_f = [B; 1; T] /\ size z' = [B; C; T].
Proof.
  intros Hll Hout Hz H. unfold flow_step in H. rewrite Hll in H.
  inv_ok H. inv_lift. injection H as <- <- <- _.
  match goal with
  | Hc : Conv1d1x1_forward (first_conv self) z = Ok ?y |- _ =>
      destruct (conv1x1_shape _ _ _ Hc) as (B0 & T0 & Hz0 & Hy0);
      rewrite Hz in Hz0; injection Hz0 as <- _ <-
  end.
  match goal with
  | Hr : run_iaf _ _ _ _ _ _ = _ |- _ => apply run_iaf_size in Hr
  end.
  match goal with
  | Ha : apply_modules _ _ = Ok _ |- _ =>
      simpl in Ha; apply rbind_ok_inv in Ha; destruct Ha as (y & Hy & Ha);
      injection Ha as <-;
      destruct (conv1x1_shape _ _ _ Hy) as (B1 & T1 & Hx1 & Hy1)
  end.
  simpl in Hx1. rewrite H1, Hy0 in Hx1. injection Hx1 as <- _ <-.
  rewrite Hout in Hy1.
  assert (Hmu : size a2 = [B; 1; T]).
  { unfold slice, dim in H3. rewrite Hy1 in H3. simpl in H3.
    injection H3 as <-. reflexivity. }
  assert (Hsc : size (texp a3) = [B; 1; T]).
  { unfold slice, dim in H4. rewrite Hy1 in H4. simpl in H4.
    injection H4 as <-. reflexivity. }
  split; [exact Hmu|]. split; [exact Hsc|].
  unfold tmul, tadd in *.
  eapply tzip_channel_l; [|exact Hmu|eassumption].
  eapply tzip_channel_l; [exact Hz|exact Hsc|eassumption].
Qed.

Lemma flow_steps_shapes self head c g B C T :
  last_layer self = [ReLU; Conv1x1 head] -> c_out head = 2 ->
  forall iafs z s0 m0 gen z' s m gen',
    size z = [B; C; T] ->
    Forall (fun t => size t = [B; 1; T]) s0 ->
    Forall (fun t => size t = [B; 1; T]) m0 ->
    flow_steps self c g iafs z s0 m0 gen = (Ok (z', s, m), gen') ->
    size z' = [B; C; T] /\
    Forall (fun t => size t = [B; 1; T]) s /\
    Forall (fun t => size t = [B; 1; T]) m.
Proof.
  intros Hll Hout.
  induction iafs as [|iaf iafs IH]; intros z s0 m0 gen z' s m gen' Hz Hs Hm H;
    simpl in H.
  - injection H as <- <- <- _. auto.
  - inv_ok H.
    match goal with
    | Hf : flow_step _ _ _ _ _ _ = _ |- _ =>
        destruct (flow_step_shapes _ _ _ _ _ _ _ _ _ _ _ _ _ _ Hll Hout Hz Hf)
          as (Hmu & Hsc & Hz')
    end.
    eapply IH; [exact Hz'| | |exact H];
      apply Forall_app; split; auto.
Qed.

Lemma scale_after_size s B C T :
  Forall (fun t => size t = [B; 1; T]) s ->
  forall js ss r,
    size ss = [B; C; T] -> scale_after s js ss = Ok r -> size r = [B; C; T].
Proof.
  intros Hs. induction js as [|j js IH]; intros ss r Hss H; simpl in H.
  - injection H as <-. exact Hss.
  - inv_ok H. eapply IH; [|exact H].
    eapply tzip_channel_l; [exact Hss| |eassumption].
    rewrite Forall_forall in Hs. apply Hs. eapply getitem_In. eassumption.
Qed.

Lemma compose_steps_size s m B C T :
  Forall (fun t => size t = [B; 1; T]) s ->
  Forall (fun t => size t = [B; 1; T]) m ->
  forall ids mu0 sc0 gen mu sc gen',
    size mu0 = [B; C; T] -> size sc0 = [B; C; T] ->
    compose_steps [B; C; T] s m ids mu0 sc0 gen = (Ok (mu, sc), gen') ->
    size mu = [B; C; T] /\ size sc = [B; C; T].
Proof.
  intros Hs Hm.
  induction ids as [|i ids IH]; intros mu0 sc0 gen mu sc gen' Hmu0 Hsc0 H;
    simpl in H.
  - injection H as <- <- _. auto.
  - inv_ok H. inv_lift.
    match goal with
    | Hr : rand_filled _ _ _ = _ |- _ => apply rand_filled_inv in Hr; subst
    end.
    match goal with
    | Ha : scale_after _ _ _ = Ok ?ss |- _ =>
        assert (Hss : size ss = [B; C; T])
          by (eapply scale_after_size; [exact Hs| |exact Ha]; reflexivity)
    end.
    rewrite Forall_forall in Hs, Hm.
    repeat match goal with
    | Hg : getitem _ _ = Ok _ |- _ => apply getitem_In in Hg
    end.
    unfold tmul, tadd in *.
    eapply IH; [| |exact H].
    + eapply tzip_same; [exact Hmu0| |eassumption].
      eapply tzip_channel_r; [|exact Hss|eassumption]. apply Hm. assumption.
    + eapply tzip_channel_l; [exact Hsc0| |eassumption]. apply Hs. assumption.
Qed.

(** C8 (corrected statement): for a network built by the constructor with
    [out_channels = 2], every input accepted by [forward] has some shape
    [(B, C, T)] and both returned tensors have that same shape; this is
    [(B, 1, T)] when the input has one channel, and [(B, C, T)] when it has
    [C > 1] channels. *)
Theorem forward_output_shape (a : Args.t) (self : StudentWaveNet) (x : tensor)
    (c g : option tensor) (softmax : bool) (gen gen' : rng)
    (mu_tot scale_tot : tensor) :
  __init__ a = Ok self ->
  Args.out_channels a = 2 ->
  forward self x c g softmax gen = (Ok (mu_tot, scale_tot), gen') ->
  exists B C T,
    size x = [B; C; T] /\
    size mu_tot = [B; C; T] /\ size scale_tot = [B; C; T].
Proof.
  intros Hinit Hout H. apply init_last_layer in Hinit. rewrite Hout in Hinit.
  unfold forward in H.
  destruct (size x) as [|B [|C [|T [|]]]] eqn:Ex; try discriminate.
  exists B, C, T. split; [reflexivity|].
  inv_ok H. inv_lift.
  repeat match goal with
  | Hr : rand_filled _ _ _ = _ |- _ => apply rand_filled_inv in Hr
  end. subst.
  match goal with
  | Hl : logistic _ _ = (Ok ?z, _) |- _ =>
      assert (Hz : size z = [B; C; T])
        by (unfold logistic in Hl; destruct (np_random_logistic _ _);
            injection Hl as <- _; reflexivity)
  end.
  match goal with
  | Hf : flow_steps _ _ _ _ _ _ _ _ = _ |- _ =>
      destruct (flow_steps_shapes _ _ _ _ B C T Hinit eq_refl _ _ _ _ _ _ _ _ _
                  Hz (Forall_nil _) (Forall_nil _) Hf) as (Hz' & Hs & Hm)
  end.
  rewrite Hz' in H. rewrite Hz in H.
  eapply compose_steps_size; [exact Hs|exact Hm| | |exact H]; reflexivity.
Qed.

End Shapes.

Lemma toy_shape_contracts : ShapeContracts toy.
Proof.
  constructor.
  - intros m x y. simpl. unfold toy_conv1x1.
    destruct (size x) as [|B [|C [|T [|]]]]; try discriminate.
    destruct (Nat.eqb_spec C (c_in m)) as [->|]; [|discriminate].
    intros H. injection H as <-. exists B, T. split; reflexivity.
  - intros f x c g gen y h gen'. simpl. intros H. injection H as <- _ _.
    reflexivity.
Qed.

(** The corrected statement at the scalar network and a [1 x 1 x 8] input. *)
Lemma forward_output_shape_witness :
  exists mu sc gen',
    @forward toy toy_net toy_x None None false 0 = (Ok (mu, sc), gen') /\
    exists B C T,
      size toy_x = [B; C; T] /\ size mu = [B; C; T] /\ size sc = [B; C; T].
Proof.
  do 3 eexists. split; [reflexivity|].
  exact (@forward_output_shape toy toy_shape_contracts Args.small toy_net toy_x
           None None false 0 _ _ _ eq_refl eq_refl eq_refl).
Defined.

(** C8 as stated fails for a two-channel (one-hot) input: the network in quantized
    mode accepts a [1 x 2 x 3] input and returns tensors of shape
    [1 x 2 x 3], not [1 x 1 x 3]. *)
Lemma forward_output_shape_counterexample :
  exists mu sc gen',
    @forward toy onehot_net onehot_x None None false 0 = (Ok (mu, sc), gen') /\
    size onehot_x = [1; 2; 3] /\
    size mu = [1; 2; 3] /\ size sc = [1; 2; 3] /\
    size mu <> [1; 1; 3] /\ size sc <> [1; 1; 3].
Proof.
  do 3 eexists. split; [reflexivity|].
  repeat split; try reflexivity; simpl; discriminate.
Qed.

(** ** The streaming path *)

Section Streaming.

Context {collab : Collaborators}.

Lemma clear_modules_cleared : forall fs fs',
  clear_modules fs = Ok fs' -> forallb module_buffer_cleared fs' = true.
Proof.
  induction fs as [|f fs IH]; intros fs' H; simpl in H.
  - injection H as <-. reflexivity.
  - inv_ok H. injection H as <-. simpl. rewrite (IH _ H1). 
    destruct f; simpl in H0; injection H0 as <-; reflexivity.
Qed.

Lemma clear_buffer_ok self self' :
  clear_buffer self = (Ok tt, self') ->
  buffers_cleared self' = true /\
  scalar_input self' = scalar_input self /\
  out_channels self' = out_channels self.
Proof.
  unfold clear_buffer. simpl.
  destruct (last_conv_layers self) as [fs|]; [|discriminate].
  destruct (clear_modules fs) as [fs'|e] eqn:E; [|discriminate].
  intros H. injection H as <-. unfold buffers_cleared. simpl.
  rewrite (clear_modules_cleared _ _ E), andb_true_r.
  split; [|split; reflexivity].
  induction (conv_layers self) as [|f l IH]; simpl; auto.
Qed.

Lemma on_net_clear_ok w w0 :
  on_net clear_buffer w = (Ok tt, w0) ->
  buffers_cleared (net w0) = true /\
  scalar_input (net w0) = scalar_input (net w) /\
  out_channels (net w0) = out_channels (net w).
Proof.
  unfold on_net. destruct (clear_buffer (net w)) as [[[]|e] n] eqn:E;
    intros H; [|discriminate].
  injection H as <-. simpl. apply clear_buffer_ok. exact E.
Qed.

Lemma get_net_inv w self w1 : get_net w = (Ok self, w1) -> self = net w /\ w1 = w.
Proof. unfold get_net. intros H. injection H as <- <-. auto. Qed.

Lemma reference_layout_ext self1 self2 ti :
  scalar_input self1 = scalar_input self2 ->
  out_channels self1 = out_channels self2 ->
  reference_layout self1 ti = reference_layout self2 ti.
Proof. intros H1 H2. unfold reference_layout. rewrite H1, H2. reflexivity. Qed.

Lemma generation_loop_length a ref c g g_btc B : forall ts ci outputs w outs w',
  generation_loop a ref c g g_btc B ts ci outputs w = (Ok outs, w') ->
  length outs = length outputs + length ts.
Proof.
  induction ts as [|t ts IH]; intros ci outputs w outs w' H; simpl in H.
  - injection H as <- _. simpl. lia.
  - inv_ok H. apply IH in H. rewrite H, length_app. simpl. lia.
Qed.

Lemma stack_size ts st :
  stack ts = Ok st -> exists sh, size st = length ts :: sh /\ ts <> [].
Proof.
  unfold stack. destruct ts as [|t0 ts]; [discriminate|].
  destruct (forallb _ _); [|discriminate].
  intros H. injection H as <-. simpl. eexists. split; [reflexivity|discriminate].
Qed.

Lemma size_at_nth t k :
  k < dim t -> size_at t (Z.of_nat k) = Ok (nth k (size t) 0).
Proof.
  intros H. unfold size_at.
  destruct (Z.ltb_spec (Z.of_nat k) 0); [lia|].
  destruct (Z.leb_spec 0 (Z.of_nat k)); [|lia].
  destruct (Z.ltb_spec (Z.of_nat k) (Z.of_nat (dim t))); [|lia].
  simpl. rewrite Nat2Z.id. reflexivity.
Qed.

(** [stack(outputs).transpose(0, 1).transpose(1, 2)] has the number of
    stacked tensors as its extent at position 2. *)
Lemma stacked_time_dimension ts st t1 out :
  stack ts = Ok st -> transpose st 0 1 = Ok t1 -> transpose t1 1 2 = Ok out ->
  size_at out 2 = Ok (length ts) /\ ts <> [].
Proof.
  intros Hs H1 H2. destruct (stack_size _ _ Hs) as (sh & Hsz & Hne).
  split; [|exact Hne].
  unfold transpose in H1. destruct (_ && _) eqn:E1 in H1; [|discriminate].
  injection H1 as <-.
  unfold transpose in H2. destruct (_ && _) eqn:E2 in H2; [|discriminate].
  injection H2 as <-.
  unfold dim in *. simpl in E2. rewrite Hsz in *.
  unfold swap_nth in E2. rewrite length_map, length_seq in E2.
  apply andb_true_iff in E2. destruct E2 as [_ E2].
  apply Nat.ltb_lt in E2.
  destruct sh as [|d0 [|d1 rest]]; simpl in E2; try lia.
  change 2%Z with (Z.of_nat 2). rewrite size_at_nth.
  - reflexivity.
  - unfold dim. simpl. rewrite !length_map, !length_seq. simpl. lia.
Qed.

Lemma incremental_forward_inv a w out w' :
  incremental_forward a w = (Ok out, w') ->
  exists w0 ref B T g g_btc c initial outputs w1 st t1,
    on_net clear_buffer w = (Ok tt, w0) /\
    resolve_steps (net w0) (test_inputs a) (arg_T a) = Ok (ref, B, T) /\
    generation_loop a ref c g g_btc B (seq 0 (Z.to_nat T)) initial [] w0
      = (Ok outputs, w1) /\
    stack outputs = Ok st /\ transpose st 0 1 = Ok t1 /\
    transpose t1 1 2 = Ok out /\
    on_net clear_buffer w1 = (Ok tt, w').
Proof.
  unfold incremental_forward. intros H. inv_ok H.
  match goal with
  | Hg : get_net _ = _ |- _ => apply get_net_inv in Hg; destruct Hg as [-> ->]
  end.
  inv_lift. injection H as <- <-.
  repeat match goal with u : unit |- _ => destruct u end.
  do 12 eexists. repeat split; eassumption.
Qed.

(** C2 (corrected statement): when [incremental_forward] returns, the time dimension
    of its output is the resolved step count [T], which is positive: the
    requested [T] when no reference is given; the time length of the
    reference (in step-wise layout) when [T] is unspecified; and the larger
    of the requested [T] and the reference's time length when both are
    given. *)
Theorem incremental_output_length (a : IncArgs) (w w' : world) (out : tensor) :
  incremental_forward a w = (Ok out, w') ->
  exists T : Z,
    size_at out 2 = Ok (Z.to_nat T) /\ (0 < T)%Z /\
    (test_inputs a = None -> arg_T a = Some T) /\
    (forall ti, test_inputs a = Some ti ->
       exists ref len,
         reference_layout (net w) ti = Ok ref /\ size_at ref 1 = Ok len /\
         T = match arg_T a with
             | None => Z.of_nat len
             | Some T0 => Z.max T0 (Z.of_nat len)
             end).
Proof.
  intros H. apply incremental_forward_inv in H.
  destruct H as (w0 & ref & B & T & g & g_btc & c & initial & outputs & w1 & st
                 & t1 & Hclear & Hres & Hloop & Hst & Ht1 & Hout & _).
  exists T.
  destruct (stacked_time_dimension _ _ _ _ Hst Ht1 Hout) as [Hdim Hne].
  apply generation_loop_length in Hloop. simpl in Hloop.
  rewrite length_seq in Hloop. rewrite Hloop in Hdim.
  assert (Hpos : (0 < T)%Z).
  { destruct outputs; [contradiction|]. simpl in Hloop. lia. }
  destruct (on_net_clear_ok _ _ Hclear) as (_ & Hsi & Hoc).
  unfold resolve_steps in Hres.
  split; [exact Hdim|]. split; [exact Hpos|]. split.
  - intros Hnone. rewrite Hnone in Hres. simpl in Hres.
    destruct (arg_T a); [|discriminate]. injection Hres as _ _ ->. reflexivity.
  - intros ti Hti. rewrite Hti in Hres. inv_ok Hres.
    destruct o as [T1|]; [|discriminate]. injection Hres as _ _ <-.
    rename H into Hlay. inv_ok Hlay. injection Hlay as _ _ <-.
    rewrite (reference_layout_ext _ (net w) _ Hsi Hoc) in H.
    eauto.
Qed.

Lemma clear_modules_total : forall fs, exists fs', clear_modules fs = Ok fs'.
Proof.
  induction fs as [|f fs [fs' IH]]; simpl; [eauto|].
  rewrite IH. destruct f; simpl; eauto.
Qed.

(** The first [clear_buffer] of a call: its result, and the state it leaves,
    whose buffers are cleared whether it raised or not. *)
Lemma on_net_clear_first w :
  buffers_cleared (net (snd (on_net clear_buffer w))) = true /\
  fst (on_net clear_buffer w)
    = match last_conv_layers (net w) with
      | Some _ => Ok tt
      | None => Raise AttributeError
      end.
Proof.
  unfold on_net, clear_buffer. simpl.
  destruct (last_conv_layers (net w)) as [fs|] eqn:E; simpl.
  - destruct (clear_modules_total fs) as [fs' Hfs]. rewrite Hfs. simpl.
    split; [|reflexivity]. unfold buffers_cleared. simpl.
    rewrite (clear_modules_cleared _ _ Hfs), andb_true_r.
    induction (conv_layers (net w)) as [|f l IH]; simpl; auto.
  - split; [|reflexivity]. unfold buffers_cleared. simpl. rewrite E.
    rewrite andb_true_r.
    induction (conv_layers (net w)) as [|f l IH]; simpl; auto.
Qed.

(** C4 (corrected statement): on every call of [incremental_forward] the
    first [clear_buffer] leaves every streaming buffer cleared, and the call
    either ends before the generation loop, raising in that very state, or
    runs the generation loop from that very state, whether the loop and the
    call then return or raise.  When the call returns, every streaming
    buffer is cleared again in the final state. *)
Theorem buffers_cleared_around_loop (a : IncArgs) (w : world) :
  exists w0,
    snd (on_net clear_buffer w) = w0 /\
    buffers_cleared (net w0) = true /\
    ((exists e, incremental_forward a w = (Raise e, w0)) \/
     (exists ref c g g_btc B T initial,
        on_net clear_buffer w = (Ok tt, w0) /\
        resolve_steps (net w0) (test_inputs a) (arg_T a) = Ok (ref, B, T) /\
        prepare_local (net w0) (arg_c a) T = Ok c /\
        prepare_initial_input (net w0) B (initial_input a) = Ok initial /\
        incremental_forward a w
          = (outputs <-
               generation_loop a ref c g g_btc B (seq 0 (Z.to_nat T)) initial [] ;;
             out <- lift (stack outputs) ;;
             out <- lift (transpose out 0 1) ;;
             out <- lift (transpose out 1 2) ;;
             on_net clear_buffer ;;
             ret out) w0)) /\
    (forall out w', incremental_forward a w = (Ok out, w') ->
       buffers_cleared (net w') = true /\
       exists ref c g g_btc B T initial outputs w1,
         on_net clear_buffer w = (Ok tt, w0) /\
         generation_loop a ref c g g_btc B (seq 0 (Z.to_nat T)) initial [] w0
           = (Ok outputs, w1)).
Proof.
  exists (snd (on_net clear_buffer w)).
  destruct (on_net_clear_first w) as [Hcl Hfst].
  split; [reflexivity|]. split; [exact Hcl|]. split.
  - remember (incremental_forward a w) as r eqn:Hrun.
    unfold incremental_forward in Hrun. unfold bind at 1 in Hrun.
    destruct (on_net clear_buffer w) as [[[]|e] w0] eqn:Hc; simpl;
      [|left; eauto].
    unfold bind at 1 in Hrun. unfold get_net at 1 in Hrun.
    unfold bind at 1 in Hrun. unfold lift at 1 in Hrun.
    destruct (resolve_steps (net w0) (test_inputs a) (arg_T a))
      as [[[ref B] T]|e] eqn:Hr; [|left; eauto].
    unfold bind at 1 in Hrun. unfold lift at 1 in Hrun.
    destruct (embed_global (net w0) B (arg_g a)) as [g|e]; [|left; eauto].
    unfold bind at 1 in Hrun. unfold lift at 1 in Hrun.
    destruct (expand_global_features B T g false) as [g_btc|e]; [|left; eauto].
    unfold bind at 1 in Hrun. unfold lift at 1 in Hrun.
    destruct (prepare_local (net w0) (arg_c a) T) as [c|e] eqn:Hp;
      [|left; eauto].
    unfold bind at 1 in Hrun. unfold lift at 1 in Hrun.
    destruct (prepare_initial_input (net w0) B (initial_input a))
      as [initial|e] eqn:Hi; [|left; eauto].
    right. exists ref, c, g, g_btc, B, T, initial.
    do 4 (split; [first [reflexivity | assumption]|]). exact Hrun.
  - intros out w' H. apply incremental_forward_inv in H.
    destruct H as (w0 & ref & B & T & g & g_btc & c & initial & outputs & w1 & st
                   & t1 & Hclear & Hres & Hloop & Hst & Ht1 & Hout & Hclear').
    split.
    + apply (on_net_clear_ok _ _ Hclear').
    + exists ref, c, g, g_btc, B, T, initial, outputs, w1.
      rewrite Hclear. simpl. split; [reflexivity | exact Hloop].
Qed.

End Streaming.

Section GenerationStep.

Context {collab : Collaborators}.

(** C3 (a defect of the code): [__init__] stores the output head as
    [last_layer] and never defines [last_conv_layers], the attribute that
    [clear_buffer] and the generation step read.  Construction with the
    default arguments succeeds, and on every constructed network
    [incremental_forward] raises [AttributeError] at its first
    [clear_buffer], whatever its arguments: no step feeds the skip sum
    through the head.  The fallback itself is in place: a head layer without
    an incremental form, such as [nn.ReLU], is applied in its ordinary
    form. *)
Theorem constructed_network_cannot_stream :
  (exists self, __init__ Args.default = Ok self) /\
  (forall a self, __init__ a = Ok self ->
     (exists head, last_layer self = [ReLU; Conv1x1 head]) /\
     last_conv_layers self = None /\
     forall ia gen,
       fst (incremental_forward ia (mkWorld self gen)) = Raise AttributeError) /\
  (forall x, head_apply ReLU x = Ok (relu x, ReLU)).
Proof.
  split; [|split].
  - apply init_succeeds; simpl.
    + lia.
    + reflexivity.
    + lia.
    + lia.
    + discriminate.
  - intros a self H. split; [|split].
    + eexists. unfold __init__ in H. inv_ok H. injection H as <-. reflexivity.
    + eapply init_last_conv_layers, H.
    + intros ia gen. apply init_last_conv_layers in H.
      unfold incremental_forward, bind, on_net, clear_buffer. simpl.
      rewrite H. reflexivity.
  - reflexivity.
Qed.

(** C10: in quantized mode the default initial sample is the one-hot vector
    of category 127 when [out_channels > 127], and the defaulting step
    raises [IndexError] when [out_channels <= 127]. *)
Theorem default_initial_input_silence (self : StudentWaveNet) (B : nat) :
  scalar_input self = false ->
  (127 < out_channels self ->
   exists t,
     default_initial_input self B = Ok t /\
     size t = [B; 1; out_channels self] /\
     forall b k, data t [b; 0; k] = if k =? 127 then 1%R else 0%R) /\
  (out_channels self <= 127 ->
   default_initial_input self B = Raise IndexError) /\
  prepare_initial_input self B None = default_initial_input self B.
Proof.
  intros Hq. split; [|split; [|reflexivity]];
    unfold default_initial_input, index_fill, dim; rewrite Hq; simpl; intros H.
  - destruct (Nat.ltb_spec 127 (out_channels self)); [|lia].
    eexists. split; [reflexivity|]. split; [reflexivity|]. reflexivity.
  - destruct (Nat.ltb_spec 127 (out_channels self)); [lia|reflexivity].
Qed.

Lemma tget_tscale t r idx : tget (tscale t r) idx = (tget t idx * r)%R.
Proof. reflexivity. Qed.

Lemma sqrt_half_lt_1 : (sqrt 0.5 < 1)%R.
Proof.
  apply Rlt_le_trans with (sqrt 1).
  - apply sqrt_lt_1_alt. lra.
  - rewrite sqrt_1. lra.
Qed.

Lemma accumulate_skip_entry skips h r :
  accumulate_skip skips h = Ok r ->
  forall idx,
    tget r idx =
      match skips with
      | None => tget h idx
      | Some sk => ((tget sk idx + tget h idx) * sqrt 0.5)%R
      end.
Proof.
  intros H idx. destruct skips as [sk|]; simpl in H.
  - inv_ok H. injection H as <-. rewrite tget_tscale.
    unfold tadd in H0. rewrite (tget_tzip _ _ _ _ H0). reflexivity.
  - injection H as <-. reflexivity.
Qed.

Lemma residual_loop_skips ct gt : forall ks x skips0 w x' skips w',
  residual_loop ks x ct gt skips0 w = (Ok (x', skips), w') ->
  exists hs,
    skip_outputs ct gt ks x w hs x' w' /\
    forall idx,
      option_map (fun t => tget t idx) skips =
        match skips0 with
        | None => skip_rule (map (fun h => tget h idx) hs)
        | Some sk => skip_rule (tget sk idx :: map (fun h => tget h idx) hs)
        end.
Proof.
  induction ks as [|k ks IH]; intros x skips0 w x' skips w' H; simpl in H.
  - injection H as <- <- <-. exists []. split; [constructor|].
    intros idx. destruct skips0; reflexivity.
  - inv_ok H. inv_lift.
    destruct (IH _ _ _ _ _ _ H) as (hs & Hrun & Hrule).
    exists (t0 :: hs). split; [econstructor; eassumption|].
    intros idx. rewrite Hrule. simpl.
    rewrite (accumulate_skip_entry _ _ _ H1 idx).
    destruct skips0; reflexivity.
Qed.

(** C6: the skip accumulator of one generation step follows the
    scale-invariant rule.  When the residual loop returns, the skip outputs
    [hs] of the layers it ran are such that every entry of the accumulated
    skip is [skip_rule] of the corresponding entries of [hs]: the first
    output initialises the accumulator and each later output [h] is combined
    as [(accumulator + h) * sqrt(0.5)].  For exactly two layers the result
    is [(h1 + h2) * sqrt(0.5)], which differs from [h1 + h2] wherever that
    sum is not zero. *)
Theorem skip_accumulation (ks : list nat) (x : tensor) (ct gt : option tensor)
    (w w' : world) (x' : tensor) (skips : option tensor) :
  residual_loop ks x ct gt None w = (Ok (x', skips), w') ->
  exists hs,
    skip_outputs ct gt ks x w hs x' w' /\
    (forall idx,
       option_map (fun t => tget t idx) skips
         = skip_rule (map (fun h => tget h idx) hs)) /\
    (forall h1 h2, hs = [h1; h2] ->
       exists sk,
         skips = Some sk /\
         forall idx,
           tget sk idx = ((tget h1 idx + tget h2 idx) * sqrt 0.5)%R /\
           ((tget h1 idx + tget h2 idx)%R <> 0%R ->
            tget sk idx <> (tget h1 idx + tget h2 idx)%R)).
Proof.
  intros H. destruct (residual_loop_skips _ _ _ _ _ _ _ _ _ H) as (hs & Hrun & Hrule).
  exists hs. split; [exact Hrun|]. split; [exact Hrule|].
  intros h1 h2 ->. simpl in Hrule.
  destruct skips as [sk|]; [|specialize (Hrule []); discriminate].
  exists sk. split; [reflexivity|]. intros idx.
  specialize (Hrule idx). simpl in Hrule. injection Hrule as Hsk.
  split; [exact Hsk|].
  intros Hnz Heq. rewrite Hsk in Heq.
  pose proof sqrt_half_lt_1. nra.
Qed.

End GenerationStep.

(** ** Weight normalisation removal *)

Section WeightNorm.

Context {collab : Collaborators}.

Lemma remove_weight_norm_eq w : remove_weight_norm w = Ok (stripped w).
Proof. destruct w; reflexivity. Qed.

Lemma stripped_idem w : stripped (stripped w) = stripped w.
Proof. destruct w; reflexivity. Qed.

Lemma remove_all_eq ws : remove_all ws = Ok (map stripped ws).
Proof.
  induction ws as [|w ws IH]; simpl; [reflexivity|].
  rewrite remove_weight_norm_eq, IH. reflexivity.
Qed.

Lemma apply_Conv1d1x1_eq m : apply_Conv1d1x1 m = Ok (stripped_Conv1d1x1 m).
Proof. unfold apply_Conv1d1x1. rewrite remove_weight_norm_eq. reflexivity. Qed.

Lemma apply_glu_eq f : apply_ResidualConv1dGLU f = Ok (stripped_glu f).
Proof. unfold apply_ResidualConv1dGLU. rewrite remove_all_eq. reflexivity. Qed.

Lemma apply_module_eq f : apply_module f = Ok (stripped_module f).
Proof.
  destruct f; simpl; [reflexivity| |].
  - rewrite apply_Conv1d1x1_eq. reflexivity.
  - rewrite remove_weight_norm_eq. reflexivity.
Qed.

Lemma apply_modules_list_eq fs :
  apply_modules_list fs = Ok (map stripped_module fs).
Proof.
  induction fs as [|f fs IH]; simpl; [reflexivity|].
  rewrite apply_module_eq, IH. reflexivity.
Qed.

Lemma apply_option_eq fs :
  apply_option fs = Ok (option_map (map stripped_module) fs).
Proof.
  destruct fs as [l|]; simpl; [|reflexivity].
  rewrite apply_modules_list_eq. reflexivity.
Qed.

Lemma stripped_glu_idem f : stripped_glu (stripped_glu f) = stripped_glu f.
Proof.
  unfold stripped_glu. simpl. f_equal. rewrite map_map.
  apply map_ext. apply stripped_idem.
Qed.

Lemma stripped_module_idem f :
  stripped_module (stripped_module f) = stripped_module f.
Proof.
  destruct f; simpl; [reflexivity| |].
  - unfold stripped_Conv1d1x1. simpl. rewrite stripped_idem. reflexivity.
  - rewrite stripped_idem. reflexivity.
Qed.

Lemma list_set_visited : forall l k f,
  nth_error l k = Some f -> Forall2 visited l (list_set l k (stripped_glu f)).
Proof.
  induction l as [|a l IH]; intros k f H.
  - destruct k; discriminate.
  - destruct k as [|k]; simpl in *.
    + injection H as ->. constructor.
      * apply stripped_glu_idem.
      * clear. induction l; constructor; [reflexivity|assumption].
    + constructor; [reflexivity|]. apply IH. exact H.
Qed.

Lemma visited_trans l1 : forall l2 l3,
  Forall2 visited l1 l2 -> Forall2 visited l2 l3 -> Forall2 visited l1 l3.
Proof.
  induction l1 as [|a l1 IH]; intros l2 l3 H12 H23.
  - inversion H12; subst. inversion H23; subst. constructor.
  - inversion H12 as [|? b ? l2' Hab H12']; subst.
    inversion H23 as [|? c ? l3' Hbc H23']; subst.
    constructor; [unfold visited in *; congruence | eapply IH; eassumption].
Qed.

Lemma visited_refl l : Forall2 visited l l.
Proof. induction l; constructor; [reflexivity|assumption]. Qed.

Lemma apply_at_visited : forall ks convs,
  exists convs', apply_at ks convs = Ok convs' /\ Forall2 visited convs convs'.
Proof.
  induction ks as [|k ks IH]; intros convs; simpl.
  - exists convs. split; [reflexivity | apply visited_refl].
  - destruct (nth_error convs k) as [f|] eqn:E; [|apply IH].
    rewrite apply_glu_eq. simpl.
    destruct (IH (list_set convs k (stripped_glu f))) as (convs' & H & Hv).
    exists convs'. split; [exact H|].
    eapply visited_trans; [apply list_set_visited; exact E | exact Hv].
Qed.

Lemma visited_map l l' :
  Forall2 visited l l' -> map stripped_glu l' = map stripped_glu l.
Proof.
  induction 1 as [|a b l l' Hab _ IH]; simpl; [reflexivity|].
  rewrite Hab, IH. reflexivity.
Qed.

Lemma list_set_middle {A} (l1 : list A) a l2 v :
  list_set (l1 ++ a :: l2) (length l1) v = l1 ++ v :: l2.
Proof. induction l1 as [|b l1 IH]; simpl; [reflexivity|]. rewrite IH. reflexivity. Qed.

Lemma apply_at_all : forall l2 l1,
  apply_at (seq (length l1) (length l2)) (l1 ++ l2)
    = Ok (l1 ++ map stripped_glu l2).
Proof.
  induction l2 as [|f l2 IH]; intros l1; simpl.
  - reflexivity.
  - rewrite nth_error_app2, Nat.sub_diag by lia. simpl.
    rewrite apply_glu_eq. simpl. rewrite list_set_middle.
    specialize (IH (l1 ++ [stripped_glu f])).
    rewrite length_app, Nat.add_1_r, <- app_assoc in IH. simpl in IH.
    rewrite IH, <- app_assoc. reflexivity.
Qed.

Lemma make_generation_fast_eq self :
  make_generation_fast_ self = Ok (stripped_net self).
Proof.
  unfold make_generation_fast_. rewrite apply_Conv1d1x1_eq. simpl.
  destruct (apply_at_visited (concat (iaf_layers self)) (conv_layers self))
    as (convs & -> & Hv). simpl.
  pose proof (apply_at_all convs []) as Hall. simpl in Hall. rewrite Hall. simpl.
  rewrite apply_modules_list_eq. simpl.
  rewrite !apply_option_eq. simpl.
  rewrite (visited_map _ _ Hv). reflexivity.
Qed.

Lemma stripped_net_idem self : stripped_net (stripped_net self) = stripped_net self.
Proof.
  unfold stripped_net. simpl. f_equal.
  - unfold stripped_Conv1d1x1. simpl. rewrite stripped_idem. reflexivity.
  - rewrite map_map. apply map_ext. apply stripped_glu_idem.
  - rewrite map_map. apply map_ext. apply stripped_module_idem.
  - destruct (last_conv_layers self); simpl; [|reflexivity].
    rewrite map_map. f_equal. apply map_ext. apply stripped_module_idem.
  - destruct (upsample_conv self); simpl; [|reflexivity].
    rewrite map_map. f_equal. apply map_ext. apply stripped_module_idem.
Qed.

(** C9: [make_generation_fast_] never raises: a weight that carries no
    weight normalisation is left as it is, including the residual blocks the
    traversal reaches twice.  A second call returns the network the first
    call returned, with every weight unchanged. *)
Theorem make_generation_fast_idempotent (self : StudentWaveNet) :
  exists self1,
    make_generation_fast_ self = Ok self1 /\
    make_generation_fast_ self1 = Ok self1 /\
    (forall w, remove_weight_norm (Plain w) = Ok (Plain w)).
Proof.
  exists (stripped_net self). split; [apply make_generation_fast_eq|].
  split; [|reflexivity].
  rewrite make_generation_fast_eq, stripped_net_idem. reflexivity.
Qed.

End WeightNorm.

(** On the small network the first call does change the weights. *)
Example make_generation_fast_strips :
  c_weight (first_conv toy_net)
    = WeightNormed (full [4; 1; 1] 1) (full [4; 1; 1] 1) /\
  exists self1,
    @make_generation_fast_ toy toy_net = Ok self1 /\
    c_weight (first_conv self1) = Plain (full [4; 1; 1] 1).
Proof.
  split; [reflexivity|].
  exists (@stripped_net toy toy_net).
  split; [apply make_generation_fast_eq | reflexivity].
Qed.

(** *** Runs on the small network *)

Lemma observe_plain :
  observe (incremental_forward plain_args streaming_world) = (Ok [1; 1; 8], true).
Proof. vm_compute. reflexivity. Qed.

Lemma observe_forced :
  observe (incremental_forward forced_args streaming_world) = (Ok [1; 1; 5], true).
Proof. vm_compute. reflexivity. Qed.

Lemma observe_short_c :
  observe (incremental_forward short_c_args cond_world)
    = (Raise IndexError, false).
Proof. vm_compute. reflexivity. Qed.

Ltac run_returns O :=
  match goal with
  | E : ?run = (Raise _, _) |- _ =>
      exfalso; pose proof O as HO; unfold observe in HO; rewrite E in HO;
      simpl in HO; discriminate HO
  end.

(** The corrected statement at a teacher-forced run: requested [T = 2],
    reference of time length 5. *)
Lemma incremental_output_length_witness :
  exists out w',
    incremental_forward forced_args streaming_world = (Ok out, w') /\
    exists T : Z,
      size_at out 2 = Ok (Z.to_nat T) /\ (0 < T)%Z /\
      (test_inputs forced_args = None -> arg_T forced_args = Some T) /\
      (forall ti, test_inputs forced_args = Some ti ->
         exists ref len,
           reference_layout (net streaming_world) ti = Ok ref /\
           size_at ref 1 = Ok len /\
           T = match arg_T forced_args with
               | None => Z.of_nat len
               | Some T0 => Z.max T0 (Z.of_nat len)
               end).
Proof.
  destruct (incremental_forward forced_args streaming_world) as [[out|e] w'] eqn:E.
  - exists out, w'. split; [reflexivity|].
    exact (incremental_output_length forced_args streaming_world w' out E).
  - run_returns observe_forced.
Defined.

(** C2 as stated fails when both [T] and a reference are given: with [T = 2] and a
    reference of time length 5 the call returns an output of time length 5,
    not 2. *)
Lemma incremental_output_length_counterexample :
  arg_T forced_args = Some 2%Z /\
  exists out w',
    incremental_forward forced_args streaming_world = (Ok out, w') /\
    size_at out 2 = Ok 5 /\ 5 <> Z.to_nat 2.
Proof.
  split; [reflexivity|].
  destruct (incremental_forward forced_args streaming_world) as [[out|e] w'] eqn:E.
  - exists out, w'. split; [reflexivity|].
    pose proof observe_forced as HO. unfold observe in HO. rewrite E in HO.
    simpl in HO. injection HO as Hsz _.
    split; [|simpl; lia].
    change 2%Z with (Z.of_nat 2). rewrite size_at_nth.
    + rewrite Hsz. reflexivity.
    + unfold dim. rewrite Hsz. simpl. lia.
  - run_returns observe_forced.
Qed.

(** The corrected statement at two runs: one that raises inside the loop,
    which it entered from cleared buffers, and one of eight steps that
    returns with the buffers cleared. *)
Lemma buffers_cleared_around_loop_witness :
  (exists w0 ref c g g_btc B T initial,
     buffers_cleared (net w0) = true /\
     incremental_forward short_c_args cond_world
       = (outputs <-
            generation_loop short_c_args ref c g g_btc B (seq 0 (Z.to_nat T))
              initial [] ;;
          out <- lift (stack outputs) ;;
          out <- lift (transpose out 0 1) ;;
          out <- lift (transpose out 1 2) ;;
          on_net clear_buffer ;;
          ret out) w0) /\
  (exists out w',
     incremental_forward plain_args streaming_world = (Ok out, w') /\
     buffers_cleared (net w') = true).
Proof.
  split.
  - destruct (buffers_cleared_around_loop short_c_args cond_world)
      as (w0 & _ & Hcl & [[e He] | (ref & c & g & g_btc & B & T & initial
                                    & _ & _ & _ & _ & Heq)] & _).
    + exfalso. pose proof observe_short_c as HO. unfold observe in HO.
      rewrite He in HO. simpl in HO. rewrite Hcl in HO. discriminate HO.
    + exists w0, ref, c, g, g_btc, B, T, initial. split; assumption.
  - destruct (incremental_forward plain_args streaming_world)
      as [[out|e] w'] eqn:E.
    + exists out, w'. split; [reflexivity|].
      destruct (buffers_cleared_around_loop plain_args streaming_world)
        as (w0 & _ & _ & _ & Hret).
      apply (Hret out w' E).
    + run_returns observe_plain.
Defined.

(** C4 as stated fails on an exceptional exit: called on a network whose
    buffers are cleared, with a conditioning tensor whose time length is not
    [T], the call raises [IndexError] at the third step (line 287) and
    leaves the histories of the first two steps in the buffers. *)
Lemma buffers_cleared_around_loop_counterexample :
  buffers_cleared (net cond_world) = true /\
  observe (incremental_forward short_c_args cond_world)
    = (Raise IndexError, false).
Proof. split; [reflexivity | exact observe_short_c]. Qed.

Lemma residual_loop_runs :
  match fst (residual_loop [0; 1] toy_step_x None None None streaming_world) with
  | Ok _ => true
  | Raise _ => false
  end = true.
Proof. vm_compute. reflexivity. Qed.

(** The rule at the first two residual blocks of the small network. *)
Lemma skip_accumulation_witness :
  exists x' skips w',
    residual_loop [0; 1] toy_step_x None None None streaming_world
      = (Ok (x', skips), w') /\
    exists hs,
      skip_outputs None None [0; 1] toy_step_x streaming_world hs x' w' /\
      (forall idx,
         option_map (fun t => tget t idx) skips
           = skip_rule (map (fun h => tget h idx) hs)) /\
      (forall h1 h2, hs = [h1; h2] ->
         exists sk,
           skips = Some sk /\
           forall idx,
             tget sk idx = ((tget h1 idx + tget h2 idx) * sqrt 0.5)%R /\
             ((tget h1 idx + tget h2 idx)%R <> 0%R ->
              tget sk idx <> (tget h1 idx + tget h2 idx)%R)).
Proof.
  destruct (residual_loop [0; 1] toy_step_x None None None streaming_world)
    as [[[x' skips]|e] w'] eqn:E.
  - exists x', skips, w'. split; [reflexivity|].
    exact (skip_accumulation [0; 1] toy_step_x None None streaming_world w' x'
             skips E).
  - exfalso. pose proof residual_loop_runs as HO. rewrite E in HO.
    simpl in HO. discriminate HO.
Defined.

(** Quantized mode with two output channels: the default initial sample
    cannot be built. *)
Lemma default_initial_input_silence_witness :
  scalar_input onehot_net = false /\
  out_channels onehot_net = 2 /\
  default_initial_input onehot_net 1 = Raise IndexError.
Proof.
  split; [reflexivity|]. split; [reflexivity|].
  destruct (default_initial_input_silence onehot_net 1 eq_refl) as (_ & H & _).
  apply H. simpl. lia.
Defined.

(** * Further properties *)

(** ** The structure [__init__] builds *)

Section Structure.

Context {collab : Collaborators}.

Lemma build_iaf_layer_closed a lps : forall ls convs iaf convs' iaf',
  build_iaf_layer a lps ls convs iaf = Ok (convs', iaf') ->
  convs' = convs ++ map (block a lps) ls /\
  iaf' = iaf ++ seq (length convs) (length ls).
Proof.
  induction ls as [|layer ls IH]; intros convs iaf convs' iaf' H; simpl in H.
  - injection H as <- <-. simpl. rewrite !app_nil_r. auto.
  - unfold py_mod in H. destruct (lps =? 0)%Z; [discriminate|]. simpl in H.
    destruct (IH _ _ _ _ H) as [-> ->].
    rewrite <- !app_assoc, length_app. simpl.
    rewrite Nat.add_1_r. auto.
Qed.

Lemma length_range n : length (range n) = Z.to_nat n.
Proof. unfold range. rewrite length_map, length_seq. reflexivity. Qed.

Lemma build_iaf_layers_closed a lps : forall sizes convs iafs convs' iafs',
  build_iaf_layers a lps sizes convs iafs = Ok (convs', iafs') ->
  convs' = convs ++ flat_map (fun n => map (block a lps) (range n)) sizes /\
  iafs' = iafs ++ steps_from (length convs) sizes.
Proof.
  induction sizes as [|n sizes IH]; intros convs iafs convs' iafs' H; simpl in H.
  - injection H as <- <-. simpl. rewrite !app_nil_r. auto.
  - inv_ok H.
    match goal with
    | Hb : build_iaf_layer _ _ _ _ _ = Ok _ |- _ =>
        apply build_iaf_layer_closed in Hb; destruct Hb as [-> ->]
    end.
    destruct (IH _ _ _ _ H) as [-> ->].
    rewrite <- !app_assoc, length_app, length_map, length_range. simpl.
    auto.
Qed.

Lemma init_closed a self :
  __init__ a = Ok self ->
  conv_layers self =
    flat_map (fun n => map (block a (Args.layers a / Args.stacks a)) (range n))
      (Args.iaf_layer_size a) /\
  iaf_layers self = steps_from 0 (Args.iaf_layer_size a).
Proof.
  unfold __init__. intros H. inv_ok H.
  match goal with
  | Hd : py_floordiv _ _ = Ok _ |- _ =>
      unfold py_floordiv in Hd; destruct (_ =? 0)%Z in Hd; [discriminate|];
      injection Hd as <-
  end.
  match goal with
  | Hb : build_iaf_layers _ _ _ _ _ = Ok _ |- _ =>
      apply build_iaf_layers_closed in Hb; destruct Hb as [-> ->]
  end.
  injection H as <-. simpl. auto.
Qed.

Lemma steps_from_shape sizes : forall start,
  length (steps_from start sizes) = length sizes /\
  map (@length nat) (steps_from start sizes) = map Z.to_nat sizes /\
  concat (steps_from start sizes)
    = seq start (length (flat_map (fun n => range n) sizes)).
Proof.
  induction sizes as [|n sizes IH]; intros start; simpl; [auto|].
  destruct (IH (start + Z.to_nat n)) as (Hl & Hm & Hc).
  rewrite Hl, Hm, Hc, length_seq, length_app, length_range, seq_app. auto.
Qed.

Lemma length_blocks a lps sizes :
  length (flat_map (fun n => map (block a lps) (range n)) sizes)
    = length (flat_map (fun n => range n) sizes).
Proof.
  induction sizes as [|n sizes IH]; simpl; [reflexivity|].
  rewrite !length_app, length_map, IH. reflexivity.
Qed.

(** X3: the flow steps partition the residual blocks.  For every constructed
    network there is one flow step per entry of [iaf_layer_size], step [p]
    holds [max(0, iaf_layer_size[p])] blocks, and the steps, one after the
    other, list every block of [conv_layers] exactly once, in creation
    order. *)
Theorem flow_steps_partition (a : Args.t) (self : StudentWaveNet) :
  __init__ a = Ok self ->
  length (iaf_layers self) = length (Args.iaf_layer_size a) /\
  map (@length nat) (iaf_layers self) = map Z.to_nat (Args.iaf_layer_size a) /\
  concat (iaf_layers self) = seq 0 (length (conv_layers self)).
Proof.
  intros H. destruct (init_closed _ _ H) as [Hc Hi].
  rewrite Hc, Hi, length_blocks. apply steps_from_shape.
Qed.

Lemma nth_error_seq_inv start len j k :
  nth_error (seq start len) j = Some k -> k = start + j /\ j < len.
Proof.
  intros H. assert (Hj : j < len).
  { rewrite <- (length_seq len start). apply nth_error_Some. congruence. }
  split; [|exact Hj].
  rewrite nth_error_nth' with (d := 0) in H by (rewrite length_seq; exact Hj).
  rewrite seq_nth in H by exact Hj. injection H as <-. reflexivity.
Qed.

Lemma nth_error_range n j :
  j < Z.to_nat n -> nth_error (range n) j = Some (Z.of_nat j).
Proof.
  intros H. unfold range. rewrite nth_error_map.
  rewrite nth_error_nth' with (d := 0) by (rewrite length_seq; exact H).
  rewrite seq_nth by exact H. reflexivity.
Qed.

Lemma steps_from_block a lps : forall sizes pre p iaf j k,
  nth_error (steps_from (length pre) sizes) p = Some iaf ->
  nth_error iaf j = Some k ->
  nth_error (pre ++ flat_map (fun n => map (block a lps) (range n)) sizes) k
    = Some (block a lps (Z.of_nat j)).
Proof.
  induction sizes as [|n sizes IH]; intros pre p iaf j k Hp Hj; simpl in Hp.
  - destruct p; discriminate.
  - destruct p as [|p]; simpl in Hp.
    + injection Hp as <-. apply nth_error_seq_inv in Hj. destruct Hj as [-> Hj].
      simpl. rewrite nth_error_app2 by lia.
      replace (length pre + j - length pre) with j by lia.
      rewrite nth_error_app1 by (rewrite length_map, length_range; exact Hj).
      rewrite nth_error_map, nth_error_range by exact Hj. reflexivity.
    + specialize (IH (pre ++ map (block a lps) (range n)) p iaf j k).
      rewrite length_app, length_map, length_range, <- app_assoc in IH.
      simpl. apply IH; assumption.
Qed.

(** X4: the dilation schedule restarts in every flow step.  In a
    constructed network the [j]-th block of any flow step is a valid
    reference into [conv_layers], and that block has dilation
    [2 ** (j % layers_per_stack)], the kernel size and conditioning channels
    of the arguments, and no input history. *)
Theorem dilation_schedule (a : Args.t) (self : StudentWaveNet)
    (p j k : nat) (iaf : list nat) :
  __init__ a = Ok self ->
  nth_error (iaf_layers self) p = Some iaf ->
  nth_error iaf j = Some k ->
  exists f,
    nth_error (conv_layers self) k = Some f /\
    glu_dilation f = py_pow2 (Z.of_nat j mod (Args.layers a / Args.stacks a)) /\
    glu_kernel_size f = Args.kernel_size a /\
    glu_cin_channels f = Args.cin_channels a /\
    glu_gin_channels f = Args.gin_channels a /\
    glu_buffer f = None.
Proof.
  intros H Hp Hj. destruct (init_closed _ _ H) as [Hc Hi].
  rewrite Hi in Hp. rewrite Hc.
  eexists. split.
  - exact (steps_from_block a _ (Args.iaf_layer_size a) [] p iaf j k Hp Hj).
  - repeat split.
Qed.

End Structure.

Lemma flow_steps_partition_witness :
  length (iaf_layers toy_net) = 2 /\
  map (@length nat) (iaf_layers toy_net) = [2; 2] /\
  concat (iaf_layers toy_net) = seq 0 (length (conv_layers toy_net)).
Proof.
  exact (@flow_steps_partition toy Args.small toy_net eq_refl).
Defined.

(** The second block of the second flow step is block 3 and has dilation
    [2 ** (1 % 2) = 2]. *)
Lemma dilation_schedule_witness :
  exists f,
    nth_error (conv_layers toy_net) 3 = Some f /\
    glu_dilation f = PyInt 2 /\
    glu_kernel_size f = 3%Z /\
    glu_cin_channels f = (-1)%Z /\
    glu_gin_channels f = (-1)%Z /\
    glu_buffer f = None.
Proof.
  exact (@dilation_schedule toy Args.small toy_net 1 1 3 [2; 3] eq_refl eq_refl
           eq_refl).
Defined.

(** ** Global conditioning *)

Section GlobalConditioning.

Context {collab : Collaborators}.

Lemma init_embed_speakers a self :
  __init__ a = Ok self ->
  has_speaker_embedding self = (Args.gin_channels a >? 0)%Z.
Proof.
  unfold __init__. intros H. inv_ok H. injection H as <-.
  unfold has_speaker_embedding. simpl.
  match goal with
  | Hb : build_embed_speakers _ = Ok _ |- _ =>
      unfold build_embed_speakers in Hb;
      destruct (Args.gin_channels a >? 0)%Z;
      [destruct (Args.n_speakers a); [|discriminate]|];
      injection Hb as <-; reflexivity
  end.
Qed.

(** X5: a constructed network has a speaker embedding exactly when
    [gin_channels > 0].  Without one, [forward] called with a global
    conditioning input [g] never returns: it raises, and the exception is
    the [TypeError] of calling [None] whenever [x] has three dimensions and
    [g.view(B, -1)] succeeds. *)
Theorem global_conditioning_needs_embedding (a : Args.t) (self : StudentWaveNet) :
  __init__ a = Ok self ->
  has_speaker_embedding self = (Args.gin_channels a >? 0)%Z /\
  ((Args.gin_channels a <= 0)%Z ->
   forall x c g0 softmax gen,
     is_raise (fst (forward self x c (Some g0) softmax gen)) /\
     forall B C T gv,
       size x = [B; C; T] -> view g0 [Some B; None] = Ok gv ->
       fst (forward self x c (Some g0) softmax gen) = Raise TypeError).
Proof.
  intros H. pose proof (init_embed_speakers _ _ H) as He.
  split; [exact He|]. intros Hg x c g0 softmax gen.
  assert (Hnone : embed_speakers self = None).
  { unfold has_speaker_embedding in He.
    destruct (Z.gtb_spec (Args.gin_channels a) 0); [lia|].
    destruct (embed_speakers self); [discriminate|reflexivity]. }
  unfold forward, bind, logistic, lift, embed_global. rewrite Hnone.
  split.
  - destruct (size x) as [|B [|C [|T [|]]]]; simpl; try exact I.
    destruct (np_random_logistic _ gen). destruct (view g0 _); exact I.
  - intros B C T gv -> Hv. destruct (np_random_logistic _ gen).
    rewrite Hv. reflexivity.
Qed.

End GlobalConditioning.

Lemma global_conditioning_needs_embedding_witness :
  has_speaker_embedding toy_net = false /\
  fst (@forward toy toy_net toy_x None (Some toy_g) false 0) = Raise TypeError.
Proof.
  destruct (@global_conditioning_needs_embedding toy Args.small toy_net eq_refl)
    as [He Hf].
  split; [exact He|].
  destruct (Hf ltac:(simpl; lia) toy_x None toy_g false 0) as [_ Ht].
  exact (Ht 1 1 8 _ eq_refl eq_refl).
Defined.

(** ** Clearing buffers and removing weight normalisation *)

Section Maintenance.

Context {collab : Collaborators}.

Lemma clear_modules_eq fs : clear_modules fs = Ok (map cleared_module fs).
Proof.
  induction fs as [|f fs IH]; simpl; [reflexivity|].
  rewrite IH. destruct f; reflexivity.
Qed.

Lemma cleared_module_idem f : cleared_module (cleared_module f) = cleared_module f.
Proof. destruct f; reflexivity. Qed.

Lemma cleared_module_weights f :
  module_weights (cleared_module f) = module_weights f.
Proof. destruct f; reflexivity. Qed.

Lemma flat_map_map {A B C} (f : A -> B) (g : B -> list C) l :
  flat_map g (map f l) = flat_map (fun x => g (f x)) l.
Proof. induction l; simpl; [reflexivity|]. rewrite IHl. reflexivity. Qed.

Lemma clear_buffer_eq (self : StudentWaveNet) :
  clear_buffer self
    = (match last_conv_layers self with
       | Some _ => Ok tt
       | None => Raise AttributeError
       end, cleared_net self).
Proof.
  unfold clear_buffer, cleared_net. simpl.
  destruct (last_conv_layers self) as [fs|] eqn:E; simpl.
  - rewrite clear_modules_eq. reflexivity.
  - unfold set_conv_layers, set_first_conv. simpl. rewrite E. reflexivity.
Qed.

Lemma cleared_net_idem (self : StudentWaveNet) :
  cleared_net (cleared_net self) = cleared_net self.
Proof.
  unfold cleared_net. simpl. f_equal.
  - rewrite map_map. reflexivity.
  - destruct (last_conv_layers self) as [fs|]; simpl; [|reflexivity].
    rewrite map_map. f_equal. apply map_ext. apply cleared_module_idem.
Qed.

(** X6: [clear_buffer] raises nothing but the [AttributeError] of a missing
    [last_conv_layers], and raises it exactly when the attribute is missing.
    Whether it raises or not, the histories of [first_conv] and of every
    residual block have been released, no weight has changed, and calling
    it again changes nothing. *)
Theorem clear_buffer_outcome (self : StudentWaveNet) :
  fst (clear_buffer self)
    = match last_conv_layers self with
      | Some _ => Ok tt
      | None => Raise AttributeError
      end /\
  c_buffer (first_conv (snd (clear_buffer self))) = None /\
  Forall (fun f => glu_buffer f = None) (conv_layers (snd (clear_buffer self))) /\
  net_weights (snd (clear_buffer self)) = net_weights self /\
  clear_buffer (snd (clear_buffer self)) = clear_buffer self.
Proof.
  rewrite (clear_buffer_eq (snd (clear_buffer self))).
  rewrite !clear_buffer_eq. simpl.
  split; [reflexivity|]. split; [reflexivity|]. split; [|split].
  - apply Forall_map. apply Forall_forall. reflexivity.
  - unfold net_weights. simpl. f_equal. f_equal.
    + rewrite flat_map_map. reflexivity.
    + do 2 f_equal. destruct (last_conv_layers self) as [fs|]; simpl;
        [|reflexivity].
      rewrite flat_map_map. apply flat_map_ext. apply cleared_module_weights.
  - rewrite cleared_net_idem. f_equal.
    destruct (last_conv_layers self); reflexivity.
Qed.

Lemma forallb_map_comp {A B} (f : A -> B) (p : B -> bool) l :
  forallb p (map f l) = forallb (fun x => p (f x)) l.
Proof. induction l; simpl; [reflexivity|]. rewrite IHl. reflexivity. Qed.

Lemma forallb_ext_all {A} (p q : A -> bool) l :
  (forall x, p x = q x) -> forallb p l = forallb q l.
Proof. intros H. induction l; simpl; [reflexivity|]. rewrite H, IHl. reflexivity. Qed.

Lemma stripped_cleared_module f :
  stripped_module (cleared_module f) = cleared_module (stripped_module f).
Proof. destruct f; reflexivity. Qed.

Lemma stripped_module_buffer f :
  module_buffer (stripped_module f) = module_buffer f.
Proof. destruct f; reflexivity. Qed.

(** X7: [make_generation_fast_] and [clear_buffer] commute: clearing the
    buffers of the stripped network gives the stripped form of the cleared
    network, with the same outcome of [clear_buffer]; and stripping leaves
    every streaming history as it was: the history of [first_conv], of each
    residual block and of each member of [last_conv_layers] is the very
    tensor (or absence of one) it was before. *)
Theorem make_generation_fast_commutes_with_clear (self : StudentWaveNet) :
  exists self1,
    make_generation_fast_ self = Ok self1 /\
    fst (clear_buffer self1) = fst (clear_buffer self) /\
    make_generation_fast_ (snd (clear_buffer self))
      = Ok (snd (clear_buffer self1)) /\
    c_buffer (first_conv self1) = c_buffer (first_conv self) /\
    map glu_buffer (conv_layers self1) = map glu_buffer (conv_layers self) /\
    option_map (map module_buffer) (last_conv_layers self1)
      = option_map (map module_buffer) (last_conv_layers self).
Proof.
  exists (stripped_net self). split; [apply make_generation_fast_eq|].
  rewrite make_generation_fast_eq, !clear_buffer_eq. simpl.
  split; [destruct (last_conv_layers self); reflexivity|]. split.
  - f_equal. unfold stripped_net, cleared_net. simpl. f_equal.
    + rewrite !map_map. reflexivity.
    + destruct (last_conv_layers self) as [fs|]; simpl; [|reflexivity].
      rewrite !map_map. f_equal. apply map_ext. apply stripped_cleared_module.
  - split; [reflexivity|]. split.
    + rewrite map_map. reflexivity.
    + destruct (last_conv_layers self) as [fs|]; simpl; [|reflexivity].
      rewrite map_map. f_equal. apply map_ext. apply stripped_module_buffer.
Qed.

Lemma stripped_plain w : is_plain (stripped w) = true.
Proof. destruct w; reflexivity. Qed.

Lemma stripped_modules_plain fs :
  forallb is_plain (flat_map module_weights (map stripped_module fs)) = true.
Proof.
  induction fs as [|f fs IH]; simpl; [reflexivity|].
  rewrite forallb_app, IH, andb_true_r.
  destruct f; simpl; rewrite ?stripped_plain; reflexivity.
Qed.

Lemma stripped_glus_plain fs :
  forallb is_plain (flat_map glu_weights (map stripped_glu fs)) = true.
Proof.
  induction fs as [|f fs IH]; simpl; [reflexivity|].
  rewrite forallb_app, IH, andb_true_r, forallb_map_comp.
  apply forallb_forall. intros w _. apply stripped_plain.
Qed.

Lemma stripped_option_plain fs :
  forallb is_plain
    (flat_map module_weights
       (option_modules (option_map (map stripped_module) fs))) = true.
Proof. destruct fs; simpl; [apply stripped_modules_plain | reflexivity]. Qed.

(** X8: after [make_generation_fast_] no weight of the network carries
    weight normalisation any more, while the flow-step structure, the
    channel configuration, the number of residual blocks and every
    streaming history are as before. *)
Theorem make_generation_fast_strips_all (self : StudentWaveNet) :
  exists self1,
    make_generation_fast_ self = Ok self1 /\
    forallb is_plain (net_weights self1) = true /\
    iaf_layers self1 = iaf_layers self /\
    length (conv_layers self1) = length (conv_layers self) /\
    scalar_input self1 = scalar_input self /\
    out_channels self1 = out_channels self /\
    c_buffer (first_conv self1) = c_buffer (first_conv self) /\
    map glu_buffer (conv_layers self1) = map glu_buffer (conv_layers self).
Proof.
  exists (stripped_net self). split; [apply make_generation_fast_eq|].
  split.
  - unfold net_weights, stripped_net. simpl. rewrite stripped_plain. simpl.
    rewrite !forallb_app, stripped_glus_plain, stripped_modules_plain,
      !stripped_option_plain.
    reflexivity.
  - simpl. rewrite length_map, map_map. repeat split.
Qed.

End Maintenance.

(** ** Edge cases of [incremental_forward] *)

Section StreamingEdges.

Context {collab : Collaborators}.

(** X9: [incremental_forward] called with [T=None] and without a
    teacher-forcing reference never returns: on a network that has
    [last_conv_layers] it raises the [TypeError] of [int(None)], after the
    first [clear_buffer] and before any random number is drawn, so the
    buffers are left cleared and the generators untouched. *)
Theorem step_count_required (a : IncArgs) (w : world) :
  arg_T a = None -> test_inputs a = None ->
  incremental_forward a w
    = (match last_conv_layers (net w) with
       | Some _ => Raise TypeError
       | None => Raise AttributeError
       end, mkWorld (cleared_net (net w)) (gen w)).
Proof.
  intros HT Hti. unfold incremental_forward, bind, on_net.
  rewrite clear_buffer_eq.
  destruct (last_conv_layers (net w)); simpl; [|reflexivity].
  unfold resolve_steps. rewrite HT, Hti. reflexivity.
Qed.

Lemma first_conv_incremental_conv_layers x w y w' :
  first_conv_incremental x w = (Ok y, w') ->
  conv_layers (net w') = conv_layers (net w).
Proof.
  unfold first_conv_incremental.
  destruct (Conv1d1x1_incremental_forward _ _) as [[y0 buf]|e]; [|discriminate].
  intros H. injection H as _ <-. reflexivity.
Qed.

Lemma head_loop_none w : is_raise (fst (head_loop None w)).
Proof.
  unfold head_loop. destruct (last_conv_layers (net w)) as [[|f fs]|]; exact I.
Qed.

(** X10: a network without residual blocks cannot generate.  With no block
    the skip sum of a step stays [None] and the output head fails on it; and
    a run of zero steps fails at [torch.stack].  So [incremental_forward]
    raises whatever its arguments. *)
Theorem no_residual_block_no_sample (a : IncArgs) (w : world) :
  conv_layers (net w) = [] ->
  is_raise (fst (incremental_forward a w)).
Proof.
  intros Hnil.
  destruct (incremental_forward a w) as [[out|e] w'] eqn:E; [|exact I].
  exfalso. apply incremental_forward_inv in E.
  destruct E as (w0 & ref & B & T & g & g_btc & c & initial & outputs & w1 & st
                 & t1 & Hclear & _ & Hloop & Hst & _).
  assert (H0 : conv_layers (net w0) = []).
  { unfold on_net in Hclear. rewrite clear_buffer_eq in Hclear.
    injection Hclear as _ <-. simpl. rewrite Hnil. reflexivity. }
  apply stack_size in Hst. destruct Hst as (sh & _ & Hne).
  pose proof (generation_loop_length _ _ _ _ _ _ _ _ _ _ _ _ Hloop) as Hlen.
  destruct (seq 0 (Z.to_nat T)) as [|t ts].
  - simpl in Hloop. injection Hloop as <- _. contradiction.
  - simpl in Hloop. inv_ok Hloop. inv_lift.
    match goal with
    | Hf : first_conv_incremental _ _ = _ |- _ =>
        apply first_conv_incremental_conv_layers in Hf; rewrite H0 in Hf
    end.
    repeat match goal with
    | Hg : get_net _ = _ |- _ => apply get_net_inv in Hg; destruct Hg as [-> ->]
    end.
    match goal with
    | Hr : residual_loop (seq 0 (length (conv_layers (net ?s)))) _ _ _ _ _ = _,
      Hc : conv_layers (net ?s) = [] |- _ =>
        rewrite Hc in Hr; simpl in Hr; injection Hr as <- <- <-
    end.
    match goal with
    | Hh : head_loop None ?s = (Ok _, _) |- _ =>
        pose proof (head_loop_none s) as Hr; rewrite Hh in Hr; exact Hr
    end.
Qed.

End StreamingEdges.

Lemma step_count_required_witness :
  incremental_forward no_T_args streaming_world
    = (Raise TypeError,
       @mkWorld toy (cleared_net (net streaming_world)) (gen streaming_world)).
Proof.
  exact (@step_count_required toy no_T_args streaming_world eq_refl eq_refl).
Defined.

Lemma no_residual_block_no_sample_witness :
  conv_layers no_block_net = [] /\
  is_raise (fst (incremental_forward plain_args (@mkWorld toy no_block_net 0))).
Proof.
  split; [reflexivity|].
  exact (@no_residual_block_no_sample toy plain_args (@mkWorld toy no_block_net 0)
           eq_refl).
Defined.

(** ** Teacher forcing *)

Lemma reference_layout_channels self ti n1 :
  size_at ti 1 = Ok n1 ->
  reference_layout self ti
    = if n1 =? channels self then transpose ti 1 2 else Ok ti.
Proof.
  intros H. unfold reference_layout, channels. rewrite H. simpl.
  destruct (scalar_input self); reflexivity.
Qed.

(** X11: the layout step of the teacher-forcing reference.  A reference of
    shape [B x C x T] whose second extent [C] is the channel count is
    brought to [B x T x C] with its entries moved accordingly; any other
    3-D reference is kept as it is.  The step is idempotent unless
    [C = T = channels]: a step-wise reference whose time length equals the
    channel count is taken for a channel-major one and transposed. *)
Theorem reference_layout_spec (self : StudentWaveNet) (ti : tensor) (B C T : nat) :
  size ti = [B; C; T] ->
  exists r,
    reference_layout self ti = Ok r /\
    (C = channels self ->
     size r = [B; T; C] /\
     forall b t c, data r [b; t; c] = data ti [b; c; t]) /\
    (C <> channels self -> r = ti) /\
    (C <> channels self \/ T <> channels self ->
     reference_layout self r = Ok r) /\
    (C = channels self -> T = channels self ->
     exists r', reference_layout self r = Ok r' /\ size r' = size ti /\
       forall b c t, data r' [b; c; t] = data ti [b; c; t]).
Proof.
  intros Hsz.
  assert (H1 : size_at ti 1 = Ok C).
  { unfold size_at, dim. rewrite Hsz. reflexivity. }
  rewrite (reference_layout_channels self ti C H1).
  destruct (Nat.eqb_spec C (channels self)) as [HC|HC].
  - unfold transpose, dim. rewrite Hsz. simpl.
    eexists. split; [reflexivity|].
    split; [intros _; split; reflexivity|].
    split; [intros Hn; contradiction|].
    split.
    + intros [Hn|Hn]; [contradiction|].
      rewrite (reference_layout_channels self _ T) by reflexivity.
      destruct (Nat.eqb_spec T (channels self)); [contradiction|reflexivity].
    + intros _ HT.
      rewrite (reference_layout_channels self _ T) by reflexivity.
      destruct (Nat.eqb_spec T (channels self)); [|contradiction].
      unfold transpose, dim. simpl.
      eexists. split; [reflexivity|]. split; reflexivity.
  - exists ti. split; [reflexivity|].
    split; [intros Hn; contradiction|].
    split; [reflexivity|].
    split.
    + intros _. rewrite (reference_layout_channels self ti C H1).
      destruct (Nat.eqb_spec C (channels self)); [contradiction|reflexivity].
    + intros Hn. contradiction.
Qed.

Lemma reference_layout_spec_witness :
  exists r,
    reference_layout toy_net ramp = Ok r /\
    size r = [1; 5; 1] /\
    (forall b t c, data r [b; t; c] = data ramp [b; c; t]) /\
    reference_layout toy_net r = Ok r.
Proof.
  destruct (reference_layout_spec toy_net ramp 1 1 5 eq_refl)
    as (r & Hr & Hc & _ & Hi & _).
  exists r. split; [exact Hr|].
  destruct (Hc eq_refl) as [Hs Hd].
  split; [exact Hs|]. split; [exact Hd|].
  apply Hi. right. discriminate.
Defined.

Section TeacherForcing.

Context {collab : Collaborators}.

Lemma bind_ext {S A B} (c : M S A) (k1 k2 : A -> M S B) s :
  (forall a s', k1 a s' = k2 a s') -> bind c k1 s = bind c k2 s.
Proof. intros H. unfold bind. destruct (c s) as [[a|e] s']; [apply H | reflexivity]. Qed.

Lemma bind_ext_at {S A B} (c : M S A) (k1 k2 : A -> M S B) s :
  (forall a s', c s = (Ok a, s') -> k1 a s' = k2 a s') ->
  bind c k1 s = bind c k2 s.
Proof.
  intros H. unfold bind. destruct (c s) as [[a|e] s']; [apply H | ]; reflexivity.
Qed.

Lemma bind_cong {S A B} (c1 c2 : M S A) (k : A -> M S B) s :
  c1 s = c2 s -> bind c1 k s = bind c2 k s.
Proof. intros H. unfold bind. rewrite H. reflexivity. Qed.

Lemma bind_lift_ok {S A B} (x : A) (k : A -> M S B) s :
  bind (lift (Ok x)) k s = k x s.
Proof. reflexivity. Qed.

Lemma next_sample_args self a1 a2 B x :
  arg_softmax a1 = arg_softmax a2 -> quantize a1 = quantize a2 ->
  log_scale_min a1 = log_scale_min a2 ->
  next_sample self a1 B x = next_sample self a2 B x.
Proof. intros H1 H2 H3. unfold next_sample. rewrite H1, H2, H3. reflexivity. Qed.

Lemma select_input_forced ti len t cur1 cur2 outs1 outs2 :
  size_at ti 1 = Ok len -> t < len ->
  select_input (Some ti) t cur1 outs1 = select_input (Some ti) t cur2 outs2.
Proof.
  intros Hlen Ht. unfold select_input. rewrite Hlen. simpl.
  destruct (Nat.ltb_spec t len); [reflexivity | lia].
Qed.

Lemma generation_loop_forced a1 a2 ti len c g g_btc B :
  arg_softmax a1 = arg_softmax a2 -> quantize a1 = quantize a2 ->
  log_scale_min a1 = log_scale_min a2 ->
  size_at ti 1 = Ok len ->
  forall ts cur1 cur2 outs w,
    (forall t, In t ts -> t < len) ->
    generation_loop a1 (Some ti) c g g_btc B ts cur1 outs w
      = generation_loop a2 (Some ti) c g g_btc B ts cur2 outs w.
Proof.
  intros H1 H2 H3 Hlen.
  induction ts as [|t ts IH]; intros cur1 cur2 outs w Hts; [reflexivity|].
  cbn [generation_loop].
  rewrite (select_input_forced ti len t cur1 cur2 outs outs Hlen
             (Hts t (or_introl eq_refl))).
  apply bind_ext. intros ci s1.
  apply bind_ext. intros ct s2.
  apply bind_ext. intros gt s3.
  apply bind_ext. intros x s4.
  apply bind_ext. intros self s5.
  apply bind_ext. intros [x' skips] s6.
  apply bind_ext. intros y s7.
  apply bind_ext. intros self' s8.
  rewrite (next_sample_args self' a1 a2 B y H1 H2 H3).
  apply bind_ext. intros z s9.
  apply IH. intros t' Ht'. apply Hts. right. exact Ht'.
Qed.

Lemma prepare_initial_input_ext self1 self2 B ii :
  scalar_input self1 = scalar_input self2 ->
  out_channels self1 = out_channels self2 ->
  prepare_initial_input self1 B ii = prepare_initial_input self2 B ii.
Proof.
  intros H1 H2. unfold prepare_initial_input, default_initial_input.
  rewrite H1, H2. reflexivity.
Qed.

(** X12: under full teacher forcing the initial input is never used.  When
    a reference is given and the requested [T] does not exceed its time
    length (or is [None]), every step takes its input from the reference
    (line 281), so two calls that differ only in [initial_input] - both
    accepted by lines 265-276 - give the same result and leave the same
    state. *)
Theorem teacher_forcing_overrides_initial_input
    (a : IncArgs) (w : world) (ti ref : tensor) (B len : nat)
    (ii1 ii2 : option tensor) (x1 x2 : tensor) :
  test_inputs a = Some ti ->
  reference_layout (net w) ti = Ok ref ->
  size_at ref 0 = Ok B ->
  size_at ref 1 = Ok len ->
  (forall T0, arg_T a = Some T0 -> (T0 <= Z.of_nat len)%Z) ->
  prepare_initial_input (net w) B ii1 = Ok x1 ->
  prepare_initial_input (net w) B ii2 = Ok x2 ->
  incremental_forward (with_initial_input a ii1) w
    = incremental_forward (with_initial_input a ii2) w.
Proof.
  intros Hti Href HB Hlen HT Hx1 Hx2.
  unfold incremental_forward.
  apply bind_ext_at. intros [] s1 Hc.
  apply on_net_clear_ok in Hc. destruct Hc as (_ & Hsi & Hoc).
  apply bind_ext_at. intros self s2 Hg.
  apply get_net_inv in Hg. destruct Hg as [-> ->].
  cbn [with_initial_input test_inputs arg_T arg_g arg_c initial_input].
  apply bind_ext_at. intros [[ref' B'] T'] s3 Hr.
  apply lift_ok_inv in Hr. destruct Hr as [Hr ->].
  unfold resolve_steps in Hr. rewrite Hti in Hr.
  rewrite (reference_layout_ext _ (net w) ti Hsi Hoc), Href in Hr.
  simpl in Hr. rewrite HB, Hlen in Hr. simpl in Hr.
  injection Hr as <- <- <-.
  apply bind_ext. intros g s4.
  apply bind_ext. intros g_btc s5.
  apply bind_ext. intros c s6.
  rewrite !(prepare_initial_input_ext (net s1) (net w) B _ Hsi Hoc), Hx1, Hx2.
  rewrite !bind_lift_ok.
  apply bind_cong.
  apply (generation_loop_forced (with_initial_input a ii1)
           (with_initial_input a ii2) ref len c g g_btc B
           eq_refl eq_refl eq_refl Hlen).
  intros t Ht. apply in_seq in Ht.
  destruct (arg_T a) as [T0|]; [|lia].
  specialize (HT T0 eq_refl). lia.
Qed.

End TeacherForcing.

Lemma teacher_forcing_overrides_initial_input_witness :
  incremental_forward (with_initial_input forced_args None) streaming_world
    = incremental_forward
        (with_initial_input forced_args (Some (full [1; 1; 1] 1%R)))
        streaming_world.
Proof.
  refine (@teacher_forcing_overrides_initial_input toy forced_args
            streaming_world (zeros [1; 1; 5]) _ 1 5
            None (Some (full [1; 1; 1] 1%R)) _ _
            eq_refl eq_refl eq_refl eq_refl _ eq_refl eq_refl).
  intros T0 H. injection H as <-. lia.
Defined.

(** ** Sampling the next input *)

Lemma view_rows x B xv :
  view x [Some B; None] = Ok xv ->
  size xv = [B; numel (size x) / B] /\ B * (numel (size x) / B) = numel (size x).
Proof.
  unfold view. simpl. rewrite Nat.mul_1_r.
  destruct (Nat.eqb_spec B 0) as [HB|HB]; simpl; [discriminate|].
  destruct (Nat.eqb_spec (numel (size x) mod B) 0) as [Hm|Hm]; simpl;
    [|discriminate].
  intros H. injection H as <-. split; [reflexivity|].
  symmetry. apply Nat.Div0.div_exact. exact Hm.
Qed.

Lemma view_rows_ok x B :
  B <> 0 -> numel (size x) mod B = 0 -> exists xv, view x [Some B; None] = Ok xv.
Proof.
  intros HB Hm. unfold view. simpl. rewrite Nat.mul_1_r.
  destruct (Nat.eqb_spec B 0); [contradiction|]. simpl.
  rewrite Hm. simpl. eauto.
Qed.

Lemma view_flat p flat :
  view p [None] = Ok flat -> numel (size flat) = numel (size p).
Proof.
  unfold view. simpl. intros H. injection H as <-. simpl.
  change (fst (Nat.divmod (numel (size p)) 0 0 0)) with (numel (size p) / 1).
  rewrite Nat.div_1_r, Nat.mul_1_r. reflexivity.
Qed.

Section Sampling.

Context {collab : Collaborators} {contracts : SamplingContracts collab}.

Lemma choice_ok_size n p gen k gen' :
  np_random_choice n p gen = (Ok k, gen') -> numel (size p) = n.
Proof.
  intros H. destruct (Nat.eq_dec (numel (size p)) n) as [E|E]; [exact E|].
  pose proof (choice_size n p gen E) as Hr. rewrite H in Hr. discriminate Hr.
Qed.

Lemma probabilities_size a xv p :
  (if arg_softmax a then softmax xv else Ok xv) = Ok p -> size p = size xv.
Proof.
  destruct (arg_softmax a); intros H.
  - apply softmax_size. exact H.
  - injection H as <-. reflexivity.
Qed.


End Sampling.

Lemma toy_sampling_contracts : SamplingContracts toy.
Proof.
  split.
  - intros n p gen H. simpl. unfold toy_choice.
    destruct (Nat.eqb_spec (numel (size p)) n); [contradiction|].
    rewrite orb_true_r. reflexivity.
  - intros x y H. simpl in H. injection H as <-. reflexivity.
Qed.


(** ** Local conditioning in the streaming path *)

Section LocalConditioning.

Context {collab : Collaborators}.

(** X14: how a step reads the local conditioning when there is no
    upsampling network.  A conditioning tensor of shape [B x C' x L] is
    accepted whatever [L] is.  If [L = T] it is transposed, and step [t]
    receives frame [t] as a [B x 1 x C'] tensor.  If [L <> T] it is left
    channel-major without any error at this point: step [t] then receives
    channel [t] over all frames, and the subscript of line 287 raises
    [IndexError] from step [C'] on. *)
Theorem local_conditioning_alignment
    (self : StudentWaveNet) (c : tensor) (B Cc L : nat) (T : Z) :
  upsample_conv self = None -> size c = [B; Cc; L] ->
  exists c1,
    prepare_local self (Some c) T = Ok (Some c1) /\
    (Z.of_nat L = T ->
     forall t, t < L ->
       exists ct, local_at (Some c1) t = Ok (Some ct) /\
         size ct = [B; 1; Cc] /\
         forall b k, data ct [b; 0; k] = data c [b; k; t]) /\
    (Z.of_nat L <> T ->
     (forall t, t < Cc ->
        exists ct, local_at (Some c1) t = Ok (Some ct) /\
          size ct = [B; 1; L] /\
          forall b k, data ct [b; 0; k] = data c [b; t; k]) /\
     (forall t, Cc <= t -> local_at (Some c1) t = Raise IndexError)).
Proof.
  intros Hup Hsz.
  assert (HL : size_at c (-1) = Ok L).
  { unfold size_at, dim. rewrite Hsz. reflexivity. }
  unfold prepare_local, upsample. rewrite Hup. cbn [rbind]. rewrite HL.
  cbn [rbind].
  destruct (Z.eqb_spec (Z.of_nat L) T) as [HT|HT].
  - unfold transpose, dim. rewrite Hsz. simpl.
    eexists. split; [reflexivity|]. split; [|intros Hn; contradiction].
    intros _ t Ht. unfold local_at, select, dim. simpl.
    destruct (Nat.ltb_spec t L); [|lia]. simpl.
    eexists. split; [reflexivity|]. split; reflexivity.
  - exists c. split; [reflexivity|]. split; [intros Hn; contradiction|].
    intros _. split.
    + intros t Ht. unfold local_at, select, dim. rewrite Hsz. simpl.
      destruct (Nat.ltb_spec t Cc); [|lia]. simpl.
      unfold unsqueeze, dim. simpl.
      eexists. split; [reflexivity|]. split; reflexivity.
    + intros t Ht. unfold local_at, select, dim. rewrite Hsz. simpl.
      destruct (Nat.ltb_spec t Cc); [lia|]. reflexivity.
Qed.

End LocalConditioning.

Lemma local_conditioning_alignment_witness :
  exists c1 ct,
    @prepare_local toy cond_net (Some toy_c) 3 = Ok (Some c1) /\
    local_at (Some c1) 1 = Ok (Some ct) /\
    size ct = [1; 1; 2] /\
    forall b k, data ct [b; 0; k] = data toy_c [b; k; 1].
Proof.
  destruct (@local_conditioning_alignment toy cond_net toy_c 1 2 3 3
              eq_refl eq_refl) as (c1 & Hp & Hal & _).
  destruct (Hal eq_refl 1 ltac:(lia)) as (ct & Hl & Hs & Hd).
  exists c1, ct. repeat split; assumption.
Defined.

(** ** Layout of the generated signal *)

Lemma stacked_layout ts st t1 out :
  stack ts = Ok st -> transpose st 0 1 = Ok t1 -> transpose t1 1 2 = Ok out ->
  exists o0 rest,
    ts = o0 :: rest /\ 2 <= dim o0 /\
    Forall (fun o => size o = size o0) ts /\
    (forall r k, size o0 = [r; k] -> size out = [r; k; length ts]) /\
    forall b c t, data out [b; c; t] = data (nth t ts o0) [b; c].
Proof.
  unfold stack. destruct ts as [|o0 rest]; [discriminate|].
  destruct (forallb _ _) eqn:Hall; [|discriminate].
  intros Hs H1 H2. injection Hs as <-.
  unfold transpose in H1. destruct (_ && _) eqn:E1 in H1; [|discriminate].
  injection H1 as <-.
  unfold transpose in H2. destruct (_ && _) eqn:E2 in H2; [|discriminate].
  injection H2 as <-.
  exists o0, rest. split; [reflexivity|].
  split.
  { unfold dim in E2. simpl in E2. unfold swap_nth in E2.
    rewrite length_map, length_seq in E2. simpl in E2.
    apply andb_true_iff in E2. destruct E2 as [_ E2].
    apply Nat.ltb_lt in E2. unfold dim. lia. }
  split.
  { apply Forall_forall. intros o Ho.
    rewrite forallb_forall in Hall. specialize (Hall o Ho).
    unfold shape_eqb in Hall.
    destruct (list_eq_dec Nat.eq_dec (size o) (size o0)); [assumption|discriminate]. }
  split.
  { intros r k Hsz. simpl. rewrite Hsz. reflexivity. }
  intros b c t. reflexivity.
Qed.

Section OutputLayout.

Context {collab : Collaborators}.

(** X15: the layout of what [incremental_forward] returns.  The samples of
    the steps all have one shape with at least two dimensions, and the
    result holds the sample of step [t] at time index [t]:
    [out[b, c, t] = outputs[t][b, c]]; for step samples of shape [B x C]
    the result has shape [B x C x T]. *)
Theorem incremental_output_layout (a : IncArgs) (w w' : world) (out : tensor) :
  incremental_forward a w = (Ok out, w') ->
  exists w0 ref c g g_btc B T initial o0 rest w1,
    generation_loop a ref c g g_btc B (seq 0 (Z.to_nat T)) initial [] w0
      = (Ok (o0 :: rest), w1) /\
    length (o0 :: rest) = Z.to_nat T /\
    size_at out 2 = Ok (Z.to_nat T) /\
    2 <= dim o0 /\
    Forall (fun o => size o = size o0) (o0 :: rest) /\
    (forall r k, size o0 = [r; k] -> size out = [r; k; Z.to_nat T]) /\
    forall b k t, t < Z.to_nat T ->
      data out [b; k; t] = data (nth t (o0 :: rest) (zeros [])) [b; k].
Proof.
  intros H. apply incremental_forward_inv in H.
  destruct H as (w0 & ref & B & T & g & g_btc & c & initial & outputs & w1 & st
                 & t1 & _ & _ & Hloop & Hst & Ht1 & Hout & _).
  destruct (stacked_time_dimension _ _ _ _ Hst Ht1 Hout) as [Htime _].
  destruct (stacked_layout _ _ _ _ Hst Ht1 Hout)
    as (o0 & rest & -> & Hdim & Hall & Hsz & Hdata).
  pose proof (generation_loop_length _ _ _ _ _ _ _ _ _ _ _ _ Hloop) as Hlen.
  rewrite length_seq in Hlen. simpl in Hlen.
  exists w0, ref, c, g, g_btc, B, T, initial, o0, rest, w1.
  split; [exact Hloop|]. split; [exact Hlen|].
  split; [rewrite <- Hlen; exact Htime|]. split; [exact Hdim|].
  split; [exact Hall|]. split.
  - intros r k Hs. rewrite (Hsz r k Hs). simpl. rewrite Hlen. reflexivity.
  - intros b k t Ht. rewrite Hdata. f_equal. apply nth_indep.
    simpl. simpl in Hlen. lia.
Qed.

End OutputLayout.

Lemma incremental_output_layout_witness :
  exists out w',
    incremental_forward plain_args streaming_world = (Ok out, w') /\
    exists outputs,
      length outputs = 8 /\
      forall b k t, t < 8 ->
        data out [b; k; t] = data (nth t outputs (zeros [])) [b; k].
Proof.
  destruct (incremental_forward plain_args streaming_world) as [[out|e] w'] eqn:E.
  - exists out, w'. split; [reflexivity|].
    destruct (@incremental_output_layout toy plain_args streaming_world w' out E)
      as (w0 & ref & c & g & g_btc & B & T & initial & o0 & rest & w1
          & Hloop & Hlen & Htime & _ & _ & _ & Hd).
    exists (o0 :: rest).
    assert (HT : Z.to_nat T = 8).
    { pose proof observe_plain as HO. unfold observe in HO. rewrite E in HO.
      simpl in HO. injection HO as Hsz _.
      unfold size_at, dim in Htime. rewrite Hsz in Htime. simpl in Htime.
      injection Htime as <-. reflexivity. }
    split; [congruence|].
    intros b k t Ht. apply Hd. lia.
  - run_returns observe_plain.
Defined.

(** ** The upsampling network *)

Lemma nth_error_pairs {A B} (f : A -> B) (r : B) (l : list A) : forall i,
  nth_error (flat_map (fun s => [f s; r]) l) (2 * i)
    = option_map f (nth_error l i) /\
  nth_error (flat_map (fun s => [f s; r]) l) (2 * i + 1)
    = option_map (fun _ => r) (nth_error l i).
Proof.
  induction l as [|s l IH]; intros i.
  - simpl. destruct i; simpl; [split; reflexivity|].
    replace (i + S (i + 0)) with (S (2 * i)) by lia.
    replace (S (2 * i) + 1) with (S (S (2 * i))) by lia.
    simpl. split; reflexivity.
  - destruct i as [|i]; [split; reflexivity|].
    replace (2 * S i) with (S (S (2 * i))) by lia.
    replace (S (S (2 * i)) + 1) with (S (S (2 * i + 1))) by lia.
    cbn [flat_map app nth_error]. apply IH.
Qed.

Lemma length_pairs {A B} (f : A -> B) (r : B) (l : list A) :
  length (flat_map (fun s => [f s; r]) l) = 2 * length l.
Proof. induction l; simpl; [reflexivity|]. rewrite IHl. lia. Qed.

Section Upsampling.

Context {collab : Collaborators}.

Lemma init_upsample_conv a self :
  __init__ a = Ok self -> build_upsample_conv a = Ok (upsample_conv self).
Proof.
  unfold __init__. intros H. inv_ok H. injection H as <-. simpl. assumption.
Qed.

(** X16: the upsampling network [__init__] builds.  Without
    [upsample_conditional_features] there is none.  With it, construction
    needs the scale list, and every scale [s], in order, contributes a
    transposed convolution of kernel [(freq_axis_kernel_size, s)], stride
    [(1, s)] and padding [((freq_axis_kernel_size - 1) // 2, 0)] followed by
    a [ReLU]: the network has twice as many members as there are scales. *)
Theorem upsample_network_structure (a : Args.t) (self : StudentWaveNet) :
  __init__ a = Ok self ->
  (Args.upsample_conditional_features a = false -> upsample_conv self = None) /\
  (Args.upsample_conditional_features a = true ->
   exists scales fs,
     Args.upsample_scales a = Some scales /\ upsample_conv self = Some fs /\
     length fs = 2 * length scales /\
     forall i s, nth_error scales i = Some s ->
       nth_error fs (2 * i + 1) = Some ReLU /\
       exists m,
         nth_error fs (2 * i) = Some (ConvT m) /\
         ct_kernel_size m = (Args.freq_axis_kernel_size a, s) /\
         ct_stride m = (1%Z, s) /\
         ct_padding m = (((Args.freq_axis_kernel_size a - 1) / 2)%Z, 0%Z)).
Proof.
  intros H. apply init_upsample_conv in H. unfold build_upsample_conv in H.
  split; intros Hu; rewrite Hu in H.
  - injection H as <-. reflexivity.
  - destruct (Args.upsample_scales a) as [scales|]; [|discriminate].
    injection H as H. symmetry in H.
    eexists scales, _. split; [reflexivity|]. split; [exact H|].
    split; [apply length_pairs|].
    intros i s Hs.
    destruct (nth_error_pairs
                (fun s0 =>
                   ConvT (new_ConvTranspose2d (Args.freq_axis_kernel_size a, s0)
                            (((Args.freq_axis_kernel_size a - 1) / 2)%Z, 0%Z)
                            (1%Z, s0) (Args.weight_normalization a)))
                ReLU scales i) as [He Ho].
    rewrite Hs in He, Ho. simpl in He, Ho.
    split; [exact Ho|].
    eexists. split; [exact He|]. repeat split.
Qed.

End Upsampling.

Lemma upsample_network_structure_witness :
  exists fs,
    upsample_conv upsampled_net = Some fs /\ length fs = 4 /\
    nth_error fs 3 = Some ReLU /\
    exists m, nth_error fs 2 = Some (ConvT m) /\ ct_stride m = (1%Z, 4%Z).
Proof.
  destruct (@upsample_network_structure toy upsampled_args upsampled_net eq_refl)
    as [_ H].
  destruct (H eq_refl) as (scales & fs & Hsc & Hfs & Hlen & Hnth).
  injection Hsc as <-.
  exists fs. split; [exact Hfs|]. split; [exact Hlen|].
  destruct (Hnth 1 4%Z eq_refl) as (Hr & m & Hm & _ & Hst & _).
  split; [exact Hr|]. exists m. split; [exact Hm | exact Hst].
Defined.

Section UpsampledConditioning.

Context {collab : Collaborators}.

Lemma upsample_some_inv self fs c T o :
  upsample_conv self = Some fs -> upsample self (Some c) T = Ok o ->
  exists c3 n, o = Some c3 /\ size_at c3 (-1) = Ok n /\ Z.of_nat n = T.
Proof.
  intros Hup H. unfold upsample in H. rewrite Hup in H. inv_ok H.
  injection H as <-.
  match goal with
  | Ha : rassert _ = Ok _ |- _ => apply rassert_ok_inv, Z.eqb_eq in Ha
  end.
  eauto.
Qed.

(** X17: with an upsampling network the streaming path cannot misread the
    conditioning.  When [prepare_local] returns for a conditioning tensor,
    the upsampled features passed the assertion of line 260, so their time
    length is [T], and what the steps subscript is their transpose; a
    length other than [T] ends the call with [AssertionError]. *)
Theorem upsampled_conditioning_aligned
    (self : StudentWaveNet) (fs : list module) (c : tensor) (T : Z) :
  upsample_conv self = Some fs ->
  (forall c1, prepare_local self (Some c) T = Ok c1 ->
     exists c3 c1',
       upsample self (Some c) T = Ok (Some c3) /\
       size_at c3 (-1) = Ok (Z.to_nat T) /\ (0 <= T)%Z /\
       transpose c3 1 2 = Ok c1' /\ c1 = Some c1') /\
  (forall c1 c2 c3 n,
     unsqueeze c 1 = Ok c1 -> apply_modules fs c1 = Ok c2 ->
     squeeze c2 1 = Ok c3 -> size_at c3 (-1) = Ok n -> Z.of_nat n <> T ->
     prepare_local self (Some c) T = Raise AssertionError).
Proof.
  intros Hup. split.
  - intros c1 H. unfold prepare_local in H.
    destruct (upsample self (Some c) T) as [o|e] eqn:Hu; [|discriminate].
    destruct (upsample_some_inv self fs c T o Hup Hu) as (c3 & n & -> & Hn & HT).
    cbn [rbind] in H. rewrite Hn in H. cbn [rbind] in H.
    rewrite HT, Z.eqb_refl in H.
    destruct (transpose c3 1 2) as [c1'|e] eqn:Ht; [|discriminate].
    injection H as <-.
    exists c3, c1'. split; [reflexivity|].
    split; [|split; [lia|split; [exact Ht | reflexivity]]].
    subst T. rewrite Nat2Z.id. exact Hn.
  - intros c1 c2 c3 n H1 H2 H3 H4 Hne.
    unfold prepare_local, upsample. rewrite Hup, H1. cbn [rbind].
    rewrite H2. cbn [rbind]. rewrite H3. cbn [rbind]. rewrite H4. cbn [rbind].
    destruct (Z.eqb_spec (Z.of_nat n) T); [contradiction|reflexivity].
Qed.

End UpsampledConditioning.

Lemma upsampled_conditioning_aligned_witness :
  exists c3 c1,
    @upsample toy upsampled_net (Some (zeros [1; 2; 1])) 8 = Ok (Some c3) /\
    size c3 = [1; 2; 8] /\
    @prepare_local toy upsampled_net (Some (zeros [1; 2; 1])) 8 = Ok (Some c1) /\
    transpose c3 1 2 = Ok c1.
Proof.
  destruct (@prepare_local toy upsampled_net (Some (zeros [1; 2; 1])) 8)
    as [o|e] eqn:E; [|vm_compute in E; discriminate E].
  destruct (upsample_conv upsampled_net) as [fs|] eqn:Hfs;
    [|vm_compute in Hfs; discriminate Hfs].
  destruct (@upsampled_conditioning_aligned toy upsampled_net fs
              (zeros [1; 2; 1]) 8 Hfs) as [H _].
  destruct (H o E) as (c3 & c1 & Hu & Hs & _ & Ht & ->).
  exists c3, c1. split; [exact Hu|].
  split; [|split; [reflexivity | exact Ht]].
  vm_compute in Hu. injection Hu as <-. reflexivity.
Defined.
